(** * LQR balance controller for the MuJoCo humanoid (python/LQR.ipynb)

    A shallow embedding of the notebook's control-synthesis cells: the trim
    search, the control setpoint, the cost matrices, the linearisation, the
    Riccati gain and the two closed loops.

    Conventions.
    - [F] stands for the notebook's float64 values read as elements of an
      ordered field (exact arithmetic); 1-D arrays are row vectors or
      sequences, 2-D arrays are matrices.
    - MuJoCo, NumPy and SciPy are libraries the notebook calls; they appear as
      records of functions ([Mujoco], [Numlib]) and every property assumed of
      them is a named hypothesis of the theorem that needs it.
    - Simulated time is kept behind the interface [clock], so that the loops
      can be run both with exact time and with binary64 time.
    - A Python exception is the [Raise] branch of [result]. *)

From HB Require Import structures.
From Stdlib Require Import ZArith PrimFloat FloatOps SpecFloat.
From mathcomp Require Import boot order algebra.
From mathcomp Require Import ring lra.
From Stdlib Require Import String Ascii.

Set Implicit Arguments.
Unset Strict Implicit.
Unset Printing Implicit Defensive.

Import Order.TTheory GRing.Theory Num.Theory.
Local Open Scope ring_scope.

(** ** Python results *)

Inductive exn := IndexError | KeyError | ValueError | OverflowError | LinAlgError.

Inductive result (A : Type) := Value of A | Raise of exn.
Arguments Raise {A} e.

Definition bind (A B : Type) (c : result A) (k : A -> result B) : result B :=
  match c with
  | Value a => k a
  | Raise e => Raise e
  end.

Notation "x <- c ;; k" := (bind c (fun x => k))
  (at level 100, c at next level, right associativity).

Definition result_map (A B : Type) (f : A -> B) (c : result A) : result B :=
  match c with
  | Value a => Value (f a)
  | Raise e => Raise e
  end.

(** [s[i]] on a list or on the first axis of an array, for an index that is
    not negative. *)
Definition getitem (A : Type) (s : seq A) (i : nat) : result A :=
  if drop i s is x :: _ then Value x else Raise IndexError.

(** [v[k]] and [v[k] += x] on a 1-D array. *)
Definition vec_get (A : Type) (n : nat) (v : 'rV[A]_n) (k : nat) : result A :=
  if insub k is Some i then Value (v 0 i) else Raise IndexError.

Definition vec_iadd (A : nmodType) (n : nat) (v : 'rV[A]_n) (k : nat) (x : A) :
  result 'rV[A]_n :=
  if insub k is Some i then
    Value (\row_j (if j == i then v 0 j + x else v 0 j))
  else Raise IndexError.

(** ** Simulated time *)

Record clock := Clock {
  ctime :> Type;
  czero : ctime;
  (* the int-to-float conversion of a literal such as DURATION *)
  cnat : nat -> ctime;
  cadd : ctime -> ctime -> ctime;
  clt : ctime -> ctime -> bool;
  (* int(np.ceil(a / b)) *)
  cceil_div : ctime -> ctime -> result int
}.

(** Exact time over an Archimedean field. A float64 quotient by zero is a
    NaN or an infinity, and [int] raises on both. *)
Definition exact_clock (F : archiRealFieldType) : clock :=
  @Clock F 0 (fun n => n%:R) +%R (fun a b => a < b)
    (fun a b =>
       if b == 0 then Raise (if a == 0 then ValueError else OverflowError)
       else Value (Num.ceil (a / b))).

(** Binary64 time: the primitive floats, rounding to nearest even as NumPy
    and MuJoCo do. *)
Fixpoint f64_of_nat (n : nat) : float :=
  if n is n'.+1 then PrimFloat.add (f64_of_nat n') 1 else 0.

Definition int_of_Z (z : Z) : int :=
  match z with
  | Z0 => 0
  | Zpos p => Posz (Pos.to_nat p)
  | Zneg p => - Posz (Pos.to_nat p)
  end.

(** The least integer that is not below [(-1)^s * m * 2^e]. *)
Definition ceil_finite (s : bool) (m : positive) (e : Z) : Z :=
  let v := if s then Zneg m else Zpos m in
  match e with
  | Zneg k => Z.opp (Z.div (Z.opp v) (Z.pow_pos 2 k))
  | _ => Z.mul v (Z.pow 2 e)
  end.

(** [int(np.ceil(a / b))]: [int] raises on a NaN and on an infinity. *)
Definition f64_ceil_div (a b : float) : result int :=
  match Prim2SF (PrimFloat.div a b) with
  | S754_finite s m e => Value (int_of_Z (ceil_finite s m e))
  | S754_zero _ => Value 0
  | S754_infinity _ => Raise OverflowError
  | S754_nan => Raise ValueError
  end.

Definition f64_clock : clock :=
  @Clock float 0%float f64_of_nat PrimFloat.add PrimFloat.ltb f64_ceil_div.

(** ** NumPy on exact values *)

Section Numpy.
Variable F : realFieldType.

(** The literals 0.001 and 1e-6. *)
Definition milli : F := 1 / 1000%:R.
Definition micro : F := milli * milli.

Definition linspace (start stop : F) (num : nat) : seq F :=
  [seq start + i%:R * ((stop - start) / (num.-1)%:R) | i <- iota 0 num].

Definition np_abs (s : seq F) : seq F := [seq `|x| | x <- s].

(** [np.argmin]: the first index of the least element. *)
Fixpoint argmin_from (best : F) (ibest i : nat) (s : seq F) : nat :=
  if s is x :: s' then
    if x < best then argmin_from x i i.+1 s'
    else argmin_from best ibest i.+1 s'
  else ibest.

Definition np_argmin (s : seq F) : result nat :=
  if s is x :: s' then Value (argmin_from x 0 1 s') else Raise ValueError.

(** [np.linalg.inv]: the inverse, or [LinAlgError] on a singular matrix. *)
Definition np_linalg_inv (n : nat) (M : 'M[F]_n) : result 'M[F]_n :=
  if M \in unitmx then Value (invmx M) else Raise LinAlgError.

End Numpy.

(** ** Vocabulary of the linear algebra *)

Section LinearAlgebra.
Variable F : realFieldType.

(** The squared Euclidean norm of a 1-D array. *)
Definition sqnorm (n : nat) (x : 'rV[F]_n) : F := (x *m x^T) 0 0.

(** The quadratic form [x M x^T]. *)
Definition qform (n : nat) (M : 'M[F]_n) (x : 'rV[F]_n) : F :=
  (x *m M *m x^T) 0 0.

Definition symmetric (n : nat) (M : 'M[F]_n) : Prop := M^T = M.

Definition positive_semidefinite (n : nat) (M : 'M[F]_n) : Prop :=
  forall x : 'rV[F]_n, 0 <= qform M x.

Definition positive_definite (n : nat) (M : 'M[F]_n) : Prop :=
  forall x : 'rV[F]_n, x != 0 -> 0 < qform M x.

(** The four Penrose equations, which say that [P] is the Moore-Penrose
    pseudo-inverse of [M]. *)
Definition moore_penrose (m n : nat) (M : 'M[F]_(m, n)) (P : 'M[F]_(n, m)) : Prop :=
  [/\ M *m P *m M = M, P *m M *m P = P,
      (M *m P)^T = M *m P & (P *m M)^T = P *m M].

(** A matrix all of whose eigenvalues lie inside the unit circle, said with
    a discrete Lyapunov function: [X - M^T X M] is positive definite for
    some symmetric positive definite [X]. *)
Definition schur_stable (n : nat) (M : 'M[F]_n) : Prop :=
  exists X : 'M[F]_n,
    [/\ symmetric X, positive_definite X & positive_definite (X - M^T *m X *m M)].

Definition stabilizable (n m : nat) (A : 'M[F]_n) (B : 'M[F]_(n, m)) : Prop :=
  exists K : 'M[F]_(m, n), schur_stable (A - B *m K).

(** The equation that [scipy.linalg.solve_discrete_are] documents for its
    result [X]:  A^T X A - X - (A^T X B) (R + B^T X B)^-1 (B^T X A) + Q = 0. *)
Definition scipy_dare (n m : nat) (A : 'M[F]_n) (B : 'M[F]_(n, m))
    (Q : 'M[F]_n) (R : 'M[F]_m) (X : 'M[F]_n) : Prop :=
  A^T *m X *m A - X
  - (A^T *m X *m B) *m invmx (R + B^T *m X *m B) *m (B^T *m X *m A) + Q = 0.

End LinearAlgebra.

(** ** Names *)

(** Python's [sub in s] on strings. *)
Fixpoint startswith (sub s : string) : bool :=
  match sub, s with
  | EmptyString, _ => true
  | String a sub', String b s' => Ascii.eqb a b && startswith sub' s'
  | String _ _, EmptyString => false
  end.

Fixpoint str_in (sub s : string) : bool :=
  startswith sub s || (if s is String _ s' then str_in sub s' else false).

(** [[f(x) for x in s]] where [f] may raise. *)
Fixpoint comprehension (A B : Type) (f : A -> result B) (s : seq A) :
  result (seq B) :=
  if s is x :: s' then
    y <- f x ;; ys <- comprehension f s' ;; Value (y :: ys)
  else Value [::].

(** ** The model, the simulation data and the libraries *)

Record mjJoint := MjJoint { jname : string; dofadr : nat }.

Section Embedding.

Variable C : clock.
Variable F : archiRealFieldType.
Variables nq nv nu : nat.
(** What the engine keeps in [MjData] besides the fields the notebook reads
    and writes. *)
Variable E : Type.

Record MjModel := MkModel {
  opt_timestep : C;
  joints : seq mjJoint;            (* model.joint(i), i < model.njnt *)
  actuator_trnid : seq nat;        (* model.actuator(i).trnid[0] *)
  body_id : string -> result nat   (* model.body(name).id *)
}.

Record MjData := MkData {
  time : C;
  qpos : 'rV[F]_nq;
  qvel : 'rV[F]_nv;
  qacc : 'rV[F]_nv;
  ctrl : 'rV[F]_nu;
  qfrc_inverse : 'rV[F]_nv;
  engine : E
}.

Definition set_qpos (d : MjData) (q : 'rV[F]_nq) : MjData :=
  MkData (time d) q (qvel d) (qacc d) (ctrl d) (qfrc_inverse d) (engine d).

Definition set_qacc (d : MjData) (a : 'rV[F]_nv) : MjData :=
  MkData (time d) (qpos d) (qvel d) a (ctrl d) (qfrc_inverse d) (engine d).

Definition set_ctrl (d : MjData) (u : 'rV[F]_nu) : MjData :=
  MkData (time d) (qpos d) (qvel d) (qacc d) u (qfrc_inverse d) (engine d).

(** The MuJoCo calls of the notebook. A call that mutates [data] returns the
    new data; a call that fills an output array returns the array. *)
Record Mujoco := MkMujoco {
  mj_resetData : MjModel -> MjData -> MjData;
  mj_resetDataKeyframe : MjModel -> MjData -> nat -> MjData;
  mj_forward : MjModel -> MjData -> MjData;
  mj_inverse : MjModel -> MjData -> MjData;
  mj_step : MjModel -> MjData -> MjData;
  (* mj_differentiatePos(model, dq, dt, qpos1, qpos2): the new dq *)
  mj_differentiatePos : MjModel -> F -> 'rV[F]_nq -> 'rV[F]_nq -> 'rV[F]_nv;
  (* mj_jacSubtreeCom(model, data, jacp, body): the new jacp *)
  mj_jacSubtreeCom : MjModel -> MjData -> nat -> 'M[F]_(3, nv);
  (* mj_jacBodyCom(model, data, jacp, None, body): the new jacp *)
  mj_jacBodyCom : MjModel -> MjData -> nat -> 'M[F]_(3, nv);
  (* mjd_transitionFD(model, data, eps, flg_centered, A, B, None, None) *)
  mjd_transitionFD :
    MjModel -> MjData -> F -> bool -> 'M[F]_(nv + nv) * 'M[F]_(nv + nv, nu);
  (* mju_sparse2dense on data.actuator_moment and its row tables *)
  mju_sparse2dense : MjData -> 'M[F]_(nu, nv)
}.

(** The NumPy and SciPy calls that are not given by a formula above. The
    state of the global random generator is explicit. *)
Record Numlib := MkNumlib {
  np_linalg_pinv : forall m n, 'M[F]_(m, n) -> 'M[F]_(n, m);
  solve_discrete_are :
    forall n m, 'M[F]_n -> 'M[F]_(n, m) -> 'M[F]_n -> 'M[F]_m -> result 'M[F]_n;
  np_exp : F -> F;
  np_sqrt : F -> F;
  rng : Type;
  np_random_seed : nat -> rng -> rng;
  np_random_randn : forall n m, rng -> 'M[F]_(n, m) * rng
}.
Arguments np_random_seed : clear implicits.
Arguments np_random_randn : clear implicits.
Arguments np_linalg_pinv : clear implicits.
Arguments solve_discrete_are : clear implicits.

Variable mj : Mujoco.
Variable np : Numlib.

(** ** Finding the control setpoint using inverse dynamics *)

(** [mj_resetDataKeyframe] overwrites the whole of [data]. *)
Definition keyframe_reset_law (m : MjModel) : Prop :=
  forall (d d' : MjData) (key : nat),
    mj_resetDataKeyframe mj m d key = mj_resetDataKeyframe mj m d' key.

Definition height_offsets : seq F :=
  linspace (- milli F) (milli F) 2001.

(** The force that inverse dynamics needs for zero acceleration once the
    keyframe pose is moved up by [offset]: the body of the scan. *)
Definition inverse_at (m : MjModel) (d : MjData) (offset : F) : result MjData :=
  let d := mj_resetDataKeyframe mj m d 1 in
  let d := mj_forward mj m d in
  let d := set_qacc d 0 in
  q <- vec_iadd (qpos d) 2 offset ;;
  let d := set_qpos d q in
  Value (mj_inverse mj m d).

Fixpoint scan (m : MjModel) (d : MjData) (offsets : seq F)
    (vertical_forces : seq F) : result (MjData * seq F) :=
  if offsets is offset :: offsets' then
    d <- inverse_at m d offset ;;
    f <- vec_get (qfrc_inverse d) 2 ;;
    scan m d offsets' (rcons vertical_forces f)
  else Value (d, vertical_forces).

Record trim_search := TrimSearch {
  scan_data : MjData;
  vertical_forces : seq F;
  idx : nat;
  best_offset : F
}.

Definition find_best_offset (m : MjModel) (d : MjData) : result trim_search :=
  r <- scan m d height_offsets [::] ;;
  idx <- np_argmin (np_abs r.2) ;;
  best_offset <- getitem height_offsets idx ;;
  Value (TrimSearch r.1 r.2 idx best_offset).

Record setpoint := Setpoint {
  trim_data : MjData;
  qpos0 : 'rV[F]_nq;
  qfrc0 : 'rV[F]_nv
}.

Definition position_setpoint (m : MjModel) (d : MjData) (best_offset : F) :
  result setpoint :=
  let d := mj_resetDataKeyframe mj m d 1 in
  let d := mj_forward mj m d in
  let d := set_qacc d 0 in
  q <- vec_iadd (qpos d) 2 best_offset ;;
  let d := set_qpos d q in
  let qpos0 := qpos d in
  let d := mj_inverse mj m d in
  Value (Setpoint d qpos0 (qfrc_inverse d)).

Definition actuator_moment (d : MjData) : 'M[F]_(nu, nv) :=
  mju_sparse2dense mj d.

(** [np.atleast_2d(qfrc0) @ np.linalg.pinv(actuator_moment)], flattened. *)
Definition ctrl0 (d : MjData) (qfrc0 : 'rV[F]_nv) : 'rV[F]_nu :=
  qfrc0 *m np_linalg_pinv np nu nv (actuator_moment d).

(** ** Choosing the Q and R matrices *)

Definition R : 'M[F]_nu := 1%:M.

Record balance_cost := BalanceCost {
  jac_com : 'M[F]_(3, nv);
  jac_foot : 'M[F]_(3, nv);
  jac_diff : 'M[F]_(3, nv);
  Qbalance : 'M[F]_nv
}.

Definition balance_cost_at (m : MjModel) (d : MjData) (qpos0 : 'rV[F]_nq) :
  result (MjData * balance_cost) :=
  let d := mj_resetData mj m d in
  let d := set_qpos d qpos0 in
  let d := mj_forward mj m d in
  torso <- body_id m "torso" ;;
  let jac_com := mj_jacSubtreeCom mj m d torso in
  foot_left <- body_id m "foot_left" ;;
  let jac_foot := mj_jacBodyCom mj m d foot_left in
  let jac_diff := jac_com - jac_foot in
  Value (d, BalanceCost jac_com jac_foot jac_diff (jac_diff^T *m jac_diff)).

Definition joint_names (m : MjModel) : seq string :=
  [seq jname j | j <- joints m].

(** [model.joint(name)] *)
Definition joint_named (m : MjModel) (name : string) : result mjJoint :=
  if [seq j <- joints m | String.eqb (jname j) name] is j :: _ then Value j
  else Raise KeyError.

Definition dofadr_named (m : MjModel) (name : string) : result nat :=
  j <- joint_named m name ;; Value (dofadr j).

Definition root_dofs : seq nat := iota 0 6.

Definition body_dofs : seq nat := iota 6 (nv - 6).

Definition abdomen_dofs (m : MjModel) : result (seq nat) :=
  comprehension (dofadr_named m)
    [seq name <- joint_names m | str_in "abdomen" name && ~~ str_in "z" name].

Definition left_leg_dofs (m : MjModel) : result (seq nat) :=
  comprehension (dofadr_named m)
    [seq name <- joint_names m |
      [&& str_in "left" name,
          [|| str_in "hip" name, str_in "knee" name | str_in "ankle" name]
        & ~~ str_in "z" name]].

Definition balance_dofs (m : MjModel) : result (seq nat) :=
  a <- abdomen_dofs m ;; l <- left_leg_dofs m ;; Value (a ++ l).

(** [np.setdiff1d(body_dofs, balance_dofs)]; [body_dofs] is increasing. *)
Definition other_dofs (balance_dofs : seq nat) : seq nat :=
  [seq i <- body_dofs | i \notin balance_dofs].

Definition BALANCE_COST : F := 1000%:R.
Definition BALANCE_JOINT_COST : F := 3%:R.
Definition OTHER_JOINT_COST : F := 3%:R / 10%:R.

(** [M[dofs, dofs] *= c]: the entries [(i, i)], [i] in [dofs], are read,
    multiplied and written back. *)
Definition imul_diag (M : 'M[F]_nv) (dofs : seq nat) (c : F) : result 'M[F]_nv :=
  if all (fun i => (i < nv)%N) dofs then
    Value (\matrix_(i, j)
             if (i == j) && (nat_of_ord i \in dofs) then M i j * c else M i j)
  else Raise IndexError.

Definition Qjoint (balance_dofs : seq nat) : result 'M[F]_nv :=
  Qjoint <- imul_diag 1%:M root_dofs 0 ;;
  Qjoint <- imul_diag Qjoint balance_dofs BALANCE_JOINT_COST ;;
  imul_diag Qjoint (other_dofs balance_dofs) OTHER_JOINT_COST.

Definition Qpos (Qbalance Qjoint : 'M[F]_nv) : 'M[F]_nv :=
  BALANCE_COST *: Qbalance + Qjoint.

(** [np.block([[Qpos, np.zeros((nv, nv))], [np.zeros((nv, 2*nv))]])] *)
Definition Q (Qpos : 'M[F]_nv) : 'M[F]_(nv + nv) :=
  col_mx (row_mx Qpos 0) 0.

(** ** Computing the LQR gain matrix K *)

Definition epsilon : F := micro F.
Definition flg_centered : bool := true.

(** The entries of [A] and [B] are whatever the finite-difference routine
    writes; their type [X] is left open. *)
Definition linearize (X : Type)
    (transitionFD : MjModel -> MjData -> F -> bool ->
                    'M[X]_(nv + nv) * 'M[X]_(nv + nv, nu))
    (m : MjModel) (d : MjData) (ctrl0 : 'rV[F]_nu) (qpos0 : 'rV[F]_nq) :
  MjData * ('M[X]_(nv + nv) * 'M[X]_(nv + nv, nu)) :=
  let d := mj_resetData mj m d in
  let d := set_ctrl d ctrl0 in
  let d := set_qpos d qpos0 in
  (d, transitionFD m d epsilon flg_centered).

(** The two cells in sequence, up to the call of the Riccati solver. *)
Definition riccati_call (X Y : Type)
    (transitionFD : MjModel -> MjData -> F -> bool ->
                    'M[X]_(nv + nv) * 'M[X]_(nv + nv, nu))
    (solve : 'M[X]_(nv + nv) -> 'M[X]_(nv + nv, nu) ->
             'M[F]_(nv + nv) -> 'M[F]_nu -> result Y)
    (m : MjModel) (d : MjData) (ctrl0 : 'rV[F]_nu) (qpos0 : 'rV[F]_nq)
    (Q : 'M[F]_(nv + nv)) (R : 'M[F]_nu) : result Y :=
  let AB := (linearize transitionFD m d ctrl0 qpos0).2 in
  solve AB.1 AB.2 Q R.

Record lqr := Lqr {
  P : 'M[F]_(nv + nv);
  K : 'M[F]_(nu, nv + nv)
}.

Definition lqr_gain (A : 'M[F]_(nv + nv)) (B : 'M[F]_(nv + nv, nu))
    (Q : 'M[F]_(nv + nv)) (R : 'M[F]_nu) : result lqr :=
  P <- solve_discrete_are np (nv + nv) nu A B Q R ;;
  Minv <- np_linalg_inv (R + B^T *m P *m B) ;;
  Value (Lqr P (Minv *m B^T *m P *m A)).

(** ** Stable standing *)

(** [K @ x] for a 1-D array [x]. *)
Definition matvec (n p : nat) (K : 'M[F]_(n, p)) (x : 'rV[F]_p) : 'rV[F]_n :=
  (K *m x^T)^T.

(** [mj_differentiatePos(model, dq, 1, qpos0, data.qpos)] followed by
    [dx = np.hstack((dq, data.qvel)).T]. *)
Definition dq (m : MjModel) (qpos0 : 'rV[F]_nq) (d : MjData) : 'rV[F]_nv :=
  mj_differentiatePos mj m 1 qpos0 (qpos d).

Definition dx (m : MjModel) (qpos0 : 'rV[F]_nq) (d : MjData) : 'rV[F]_(nv + nv) :=
  row_mx (dq m qpos0 d) (qvel d).

(** [data.ctrl = ctrl0 - K @ dx] *)
Definition lqr_control (m : MjModel) (qpos0 : 'rV[F]_nq) (ctrl0 : 'rV[F]_nu)
    (K : 'M[F]_(nu, nv + nv)) (d : MjData) : MjData :=
  set_ctrl d (ctrl0 - matvec K (dx m qpos0 d)).

(** [while data.time < DURATION: ...]; [None] when [fuel] iterations were
    not enough to leave the loop. *)
Fixpoint lqr_loop (fuel DURATION : nat) (m : MjModel) (qpos0 : 'rV[F]_nq)
    (ctrl0 : 'rV[F]_nu) (K : 'M[F]_(nu, nv + nv)) (d : MjData) : option MjData :=
  if clt (time d) (cnat C DURATION) then
    if fuel is fuel'.+1 then
      let d := lqr_control m qpos0 ctrl0 K d in
      let d := mj_step mj m d in
      lqr_loop fuel' DURATION m qpos0 ctrl0 K d
    else None
  else Some d.

Definition initial_pose (m : MjModel) (d : MjData) (qpos0 : 'rV[F]_nq) : MjData :=
  set_qpos (mj_resetData mj m d) qpos0.

Definition stable_standing (fuel : nat) (m : MjModel) (d : MjData)
    (qpos0 : 'rV[F]_nq) (ctrl0 : 'rV[F]_nu) (K : 'M[F]_(nu, nv + nv)) :
  option MjData :=
  lqr_loop fuel 5 m qpos0 ctrl0 K (initial_pose m d qpos0).

(** ** Final video: smoothed noise on top of the LQR controller *)

Definition DURATION : nat := 12.
Definition CTRL_RATE : F := 8%:R / 10%:R.
Definition BALANCE_STD : F := 1 / 100%:R.
Definition OTHER_STD : F := 8%:R / 100%:R.

(** [int(x)] on a float: truncation towards zero. *)
Definition py_int (x : F) : int := if 0 <= x then Num.floor x else Num.ceil x.

Definition nsteps (m : MjModel) : result int :=
  cceil_div (cnat C DURATION) (opt_timestep m).

(** A 2-D array whose first dimension is computed: the list of its rows. *)
Definition rows (n p : nat) (M : 'M[F]_(n, p)) : seq 'rV[F]_p :=
  [seq row i M | i <- enum 'I_n].

Definition column (p : nat) (M : seq 'rV[F]_p) (i : 'I_p) : seq F :=
  map (fun r : 'rV[F]_p => r 0 i) M.

(** [M[:, i] = c] *)
Definition set_column (p : nat) (M : seq 'rV[F]_p) (i : 'I_p) (c : seq F) :
  result (seq 'rV[F]_p) :=
  if size c == size M then
    Value (map (fun rc : 'rV[F]_p * F =>
                  \row_j (if j == i then rc.2 else rc.1 0 j)) (zip M c))
  else Raise ValueError.

(** [np.random.randn(nsteps, nu)] *)
Definition randn (n : int) (g : rng np) : result (seq 'rV[F]_nu * rng np) :=
  if n is Posz k then
    let r := np_random_randn np k nu g in Value (rows r.1, r.2)
  else Raise ValueError.

(** [CTRL_STD[i]] for [i] in [range(nu)]. *)
Definition actuator_std (m : MjModel) (balance_dofs : seq nat) (i : nat) :
  result F :=
  joint <- getitem (actuator_trnid m) i ;;
  j <- getitem (joints m) joint ;;
  let dof := dofadr j in
  Value (if dof \in balance_dofs then BALANCE_STD else OTHER_STD).

Definition CTRL_STD (m : MjModel) (balance_dofs : seq nat) : result 'rV[F]_nu :=
  s <- comprehension (actuator_std m balance_dofs) (iota 0 nu) ;;
  Value (\row_i nth 0 s i).

Definition width (nsteps : int) : int :=
  py_int (nsteps%:~R * CTRL_RATE / DURATION%:R).

Definition np_linalg_norm (v : seq F) : F :=
  np_sqrt np (\sum_(x <- v) `|x| ^+ 2).

(** [kernel = np.exp(-0.5*np.linspace(-3, 3, width)**2)] and
    [kernel /= np.linalg.norm(kernel)]. *)
Definition kernel (width : int) : result (seq F) :=
  if width is Posz w then
    let kernel := [seq np_exp np (- (1 / 2%:R) * x ^+ 2) | x <- linspace (- 3%:R) 3%:R w] in
    let norm := np_linalg_norm kernel in
    Value [seq x / norm | x <- kernel]
  else Raise ValueError.

(** The discrete convolution, [full[k] = sum_j a[j] * v[k - j]]. *)
Definition convolve_full (a v : seq F) : seq F :=
  [seq \sum_(j <- iota 0 k.+1) nth 0 a j * nth 0 v (k - j)
  | k <- iota 0 (size a + size v).-1].

(** [np.convolve(a, v, mode='same')]: the middle [max(len(a), len(v))]
    entries of the full convolution. *)
Definition np_convolve_same (a v : seq F) : result (seq F) :=
  if (size a == 0%N) || (size v == 0%N) then Raise ValueError
  else
    let long := if (size a < size v)%N then v else a in
    let short := if (size a < size v)%N then a else v in
    Value (take (size long) (drop ((size short).-1)./2 (convolve_full long short))).

(** [for i in range(nu): perturb[:, i] = np.convolve(perturb[:, i], kernel,
    mode='same')] *)
Fixpoint smooth (kernel : seq F) (perturb : seq 'rV[F]_nu) (channels : seq 'I_nu) :
  result (seq 'rV[F]_nu) :=
  if channels is i :: channels' then
    c <- np_convolve_same (column perturb i) kernel ;;
    perturb <- set_column perturb i c ;;
    smooth kernel perturb channels'
  else Value perturb.

Record noise := Noise {
  noise_rng : rng np;        (* the global generator after the cell *)
  noise_nsteps : int;
  perturb : seq 'rV[F]_nu;
  noise_std : 'rV[F]_nu
}.

Definition precompute_noise (m : MjModel) (balance_dofs : seq nat) (g : rng np) :
  result noise :=
  let g := np_random_seed np 1 g in
  nsteps <- nsteps m ;;
  r <- randn nsteps g ;;
  CTRL_STD <- CTRL_STD m balance_dofs ;;
  kernel <- kernel (width nsteps) ;;
  perturb <- smooth kernel r.1 (enum 'I_nu) ;;
  Value (Noise r.2 nsteps perturb CTRL_STD).

(** [data.ctrl = ctrl0 - K @ dx] and [data.ctrl += CTRL_STD * perturb[step]] *)
Definition disturbed_control (m : MjModel) (qpos0 : 'rV[F]_nq)
    (ctrl0 : 'rV[F]_nu) (K : 'M[F]_(nu, nv + nv)) (CTRL_STD : 'rV[F]_nu)
    (perturb : seq 'rV[F]_nu) (d : MjData) (step : nat) : result MjData :=
  let d := lqr_control m qpos0 ctrl0 K d in
  p <- getitem perturb step ;;
  Value (set_ctrl d (ctrl d + \row_i (CTRL_STD 0 i * p 0 i))).

Fixpoint disturbed_loop (fuel : nat) (m : MjModel) (qpos0 : 'rV[F]_nq)
    (ctrl0 : 'rV[F]_nu) (K : 'M[F]_(nu, nv + nv)) (CTRL_STD : 'rV[F]_nu)
    (perturb : seq 'rV[F]_nu) (d : MjData) (step : nat) :
  option (result (MjData * nat)) :=
  if clt (time d) (cnat C DURATION) then
    if fuel is fuel'.+1 then
      match disturbed_control m qpos0 ctrl0 K CTRL_STD perturb d step with
      | Value d =>
          disturbed_loop fuel' m qpos0 ctrl0 K CTRL_STD perturb
            (mj_step mj m d) step.+1
      | Raise e => Some (Raise e)
      end
    else None
  else Some (Value (d, step)).

(** The whole cell: noise, reset, loop. *)
Definition final_run (fuel : nat) (m : MjModel) (balance_dofs : seq nat)
    (qpos0 : 'rV[F]_nq) (ctrl0 : 'rV[F]_nu) (K : 'M[F]_(nu, nv + nv))
    (d : MjData) (g : rng np) : option (result (MjData * nat)) :=
  match precompute_noise m balance_dofs g with
  | Value n =>
      disturbed_loop fuel m qpos0 ctrl0 K (noise_std n) (perturb n)
        (initial_pose m d qpos0) 0
  | Raise e => Some (Raise e)
  end.

End Embedding.

Arguments np_linalg_pinv [F] _ (_ _)%_nat_scope _%_ring_scope.
Arguments solve_discrete_are [F] _ (_ _)%_nat_scope (_ _ _ _)%_ring_scope.
Arguments np_random_seed [F] _ _%_nat_scope _.
Arguments np_random_randn [F] _ (_ _)%_nat_scope _.
Arguments randn [F nu] np n%_ring_scope g.
Arguments precompute_noise [C F] nu%_nat_scope np m balance_dofs%_seq_scope g.
Arguments final_run [C F nq nv nu E] mj np fuel%_nat_scope m
  balance_dofs%_seq_scope (qpos0 ctrl0 K)%_ring_scope d g.

(** ** Values that are not finite *)

(** A float64 value: a finite number, an infinity or a NaN. *)
Inductive float64 (F : Type) := Finite of F | PosInf | NegInf | NaN.
Arguments PosInf {F}.
Arguments NegInf {F}.
Arguments NaN {F}.

(** [np.isfinite] *)
Definition isfinite (F : Type) (x : float64 F) : bool :=
  if x is Finite _ then true else false.

(** ** What is assumed of the libraries *)

(** [solve_discrete_are] at one input: on symmetric weights, [Q] positive
    semi-definite and [R] positive definite, and a stabilizable pair, it
    returns a symmetric positive semi-definite solution of its equation. *)
Definition dare_solver_contract (F : archiRealFieldType) (np : Numlib F)
    (n m : nat) (A : 'M[F]_n) (B : 'M[F]_(n, m)) (Q : 'M[F]_n) (R : 'M[F]_m) :
  Prop :=
  symmetric Q -> positive_semidefinite Q ->
  symmetric R -> positive_definite R -> stabilizable A B ->
  exists X : 'M[F]_n,
    [/\ solve_discrete_are np n m A B Q R = Value X,
        symmetric X, positive_semidefinite X & scipy_dare A B Q R X].

Section Laws.
Variables (C : clock) (F : archiRealFieldType) (nq nv nu : nat) (E : Type).
Variable mj : Mujoco C F nq nv nu E.
Variable np : Numlib F.
Variable m : MjModel C.

(** [mj_resetData] overwrites the whole of [data] and sets the time to zero. *)
Definition data_reset_law : Prop :=
  (forall d d' : MjData C F nq nv nu E, mj_resetData mj m d = mj_resetData mj m d')
  /\ (forall d : MjData C F nq nv nu E, time (mj_resetData mj m d) = czero C).

(** [mj_step] advances the time by [model.opt.timestep]. *)
Definition step_time_law : Prop :=
  forall d : MjData C F nq nv nu E,
    time (mj_step mj m d) = cadd (time d) (opt_timestep m).

(** [np.random.seed] overwrites the state of the global generator. *)
Definition seed_law : Prop :=
  forall (seed : nat) (g g' : rng np),
    np_random_seed np seed g = np_random_seed np seed g'.

End Laws.

(** ** The controller as the specification words it

    One tick: the tangent-space position deviation is the manifold
    difference of the setpoint and the current position, the state deviation
    joins it with the velocity deviation [v - v0], the command is
    [u0 - K dx] plus the disturbance sample of the tick, and the command is
    handed to the step of the dynamics. *)

Section SpecController.
Variables (C : clock) (F : archiRealFieldType) (nq nv nu : nat) (E : Type).
Variable mj : Mujoco C F nq nv nu E.
Variable m : MjModel C.
Variables (q0 : 'rV[F]_nq) (v0 : 'rV[F]_nv) (u0 : 'rV[F]_nu).
Variable K : 'M[F]_(nu, nv + nv).

Definition manifold_difference (reference other : 'rV[F]_nq) : 'rV[F]_nv :=
  mj_differentiatePos mj m 1 reference other.

Definition spec_command (disturbance : 'rV[F]_nu) (d : MjData C F nq nv nu E) :
  'rV[F]_nu :=
  let delta_q := manifold_difference q0 (qpos d) in
  let delta_x := row_mx delta_q (qvel d - v0) in
  u0 - (K *m delta_x^T)^T + disturbance.

Definition spec_tick (disturbance : 'rV[F]_nu) (d : MjData C F nq nv nu E) :
  MjData C F nq nv nu E :=
  mj_step mj m (set_ctrl d (spec_command disturbance d)).

(** The state [n] ticks after [d], when [d] is the state at tick number
    [step] and tick number [k] receives [disturbance k]; the step counter
    goes up by one at each tick. *)
Fixpoint spec_run (disturbance : nat -> 'rV[F]_nu) (n : nat)
    (d : MjData C F nq nv nu E) (step : nat) : MjData C F nq nv nu E :=
  if n is n'.+1 then
    spec_run disturbance n' (spec_tick (disturbance step) d) step.+1
  else d.

End SpecController.

(** ** The disturbed loop seen from the clock

    What is left of [disturbed_loop] when only the time, the step counter
    and the length [n] of [perturb] are kept. *)
Fixpoint clock_loop (C : clock) (fuel DURATION : nat) (timestep : C) (n : nat)
    (t : C) (step : nat) : option (result nat) :=
  if clt t (cnat C DURATION) then
    if fuel is fuel'.+1 then
      if (step < n)%N then
        clock_loop fuel' DURATION timestep n (cadd t timestep) step.+1
      else Some (Raise IndexError)
    else None
  else Some (Value step).

(** ** A test double for the libraries

    One body on a vertical axis, three coordinates, one actuator along the
    third. [g h] is the vertical force that inverse dynamics reports when the
    body stands at height [h]; the keyframe puts it at height 0. *)

Section TestDouble.
Variable C : clock.
Variable F : archiRealFieldType.
(** The double has [k + 3] coordinates. *)
Variable k : nat.
Variable g : F -> F.

Definition toy_z : 'I_k.+3 := Ordinal (isT : (2 < k.+3)%N).

Definition toy_data : MjData C F k.+3 k.+3 1 unit :=
  MkData (czero C) 0 0 0 0 0 tt.

Definition toy_inverse (d : MjData C F k.+3 k.+3 1 unit) :
  MjData C F k.+3 k.+3 1 unit :=
  MkData (time d) (qpos d) (qvel d) (qacc d) (ctrl d)
    (\row_j (if j == toy_z then g (qpos d 0 toy_z) else 0)) (engine d).

Definition toy_step (m : MjModel C) (d : MjData C F k.+3 k.+3 1 unit) :
  MjData C F k.+3 k.+3 1 unit :=
  MkData (cadd (time d) (opt_timestep m)) (qpos d) (qvel d) (qacc d) (ctrl d)
    (qfrc_inverse d) (engine d).

Definition toy_mj : Mujoco C F k.+3 k.+3 1 unit :=
  MkMujoco
    (fun _ _ => toy_data)
    (fun _ _ _ => toy_data)
    (fun _ d => d)
    (fun _ d => toy_inverse d)
    toy_step
    (fun _ dt q1 q2 => dt^-1 *: (q2 - q1))
    (fun _ _ _ => pid_mx 3)
    (fun _ _ _ => 0)
    (fun _ _ _ _ => (0, 0))
    (fun _ => delta_mx 0 toy_z).

Definition toy_model (timestep : C) : MjModel C :=
  MkModel timestep
    [:: MjJoint "root" 0; MjJoint "abdomen_y" 6; MjJoint "knee_left" 7;
        MjJoint "elbow_right" 8]
    [:: 2%N]
    (fun _ => Value 0%N).

(** The generator of the double counts its draws; the solver returns [Q],
    the solution of the Riccati equation when [A] is zero. *)
Definition toy_np : Numlib F :=
  @MkNumlib F
    (fun _ _ M => M^T)
    (fun _ _ _ _ Q _ => Value Q)
    (fun _ => 1)
    (fun x => x)
    nat
    (fun seed _ => seed)
    (fun n m g => (const_mx g%:R, g.+1)).

(** A spring floor that carries the unit weight half a millimetre below the
    keyframe pose. *)
Definition spring_floor (h : F) : F := 2000%:R * h + 1.

(** A body that is pushed up more the higher it stands: within the scan the
    needed force is least, in absolute value, at the lowest offset. *)
Definition rising_force (h : F) : F := 1 + h.

End TestDouble.

(** ** Recording the videos

    Every simulation loop of the notebook ends with the same lines: when
    [len(frames) < data.time * FRAMERATE] the scene is updated and rendered,
    and the pixels are appended to [frames]. *)

Definition FRAMERATE : nat := 60.
Definition TOTAL_ROTATION : nat := 15.

(** What the loops compute from the time besides the test of the loop: the
    test on the number of frames, and the time as a number. *)
Record timing (C : clock) (F : Type) := Timing {
  (* len(frames) < data.time * FRAMERATE *)
  frame_due : nat -> C -> nat -> bool;
  seconds : C -> F
}.

Definition exact_timing (F : archiRealFieldType) : timing (exact_clock F) F :=
  @Timing (exact_clock F) F (fun len t rate => len%:R < (t : F) * rate%:R)
    (fun t => t).

(** The frames are as many as the time [t] asks for at [FRAMERATE], and no
    more: their number is [t * FRAMERATE] rounded up. *)
Definition framed (F : archiRealFieldType) (Px : Type) (frames : seq Px)
    (t : F) : Prop :=
  (size frames)%:R - 1 < t * FRAMERATE%:R <= (size frames)%:R.

Section Videos.
Variables (C : clock) (F : archiRealFieldType) (nq nv nu : nat) (E : Type).
Variable mj : Mujoco C F nq nv nu E.
Variable np : Numlib F.
Variable tm : timing C F.
(** The pixels of a frame. *)
Variable Px : Type.

Record MjvCamera := MkCamera {
  cam_distance : F;
  cam_lookat : 'rV[F]_3;
  cam_azimuth : F
}.

Definition set_distance (c : MjvCamera) (x : F) : MjvCamera :=
  MkCamera x (cam_lookat c) (cam_azimuth c).

Definition set_lookat (c : MjvCamera) (p : 'rV[F]_3) : MjvCamera :=
  MkCamera (cam_distance c) p (cam_azimuth c).

Definition set_azimuth (c : MjvCamera) (a : F) : MjvCamera :=
  MkCamera (cam_distance c) (cam_lookat c) a.

Record MjvOption := MkOption { mjVIS_CONTACTFORCE : bool }.

(** The calls on the visualisation side. [render] is
    [renderer.update_scene(data, camera, scene_option)] followed by
    [renderer.render()]; an argument left out is [None]. The scale
    [model.vis.map.force] is read by the renderer only. *)
Record Viewer := MkViewer {
  mjv_defaultFreeCamera : MjModel C -> MjvCamera;
  (* data.body(name).subtree_com *)
  subtree_com : MjData C F nq nv nu E -> string -> result 'rV[F]_3;
  render : MjData C F nq nv nu E -> option MjvCamera -> option MjvOption -> Px
}.

Variable vw : Viewer.
(** The renderer of the last cell, of higher resolution. *)
Variable hires : Viewer.

(** [if len(frames) < data.time * FRAMERATE: ...; frames.append(pixels)] *)
Definition capture (scene : MjData C F nq nv nu E -> result Px)
    (frames : seq Px) (d : MjData C F nq nv nu E) : result (seq Px) :=
  if frame_due tm (size frames) (time d) FRAMERATE then
    pixels <- scene d ;;
    Value (rcons frames pixels)
  else Value frames.

(** [while data.time < DURATION:] the lines that set the control, then
    [mj_step(model, data)], then the capture of a frame. [s] is what the
    control lines carry from one iteration to the next. *)
Fixpoint video_loop (S : Type)
    (control : MjData C F nq nv nu E -> S -> result (MjData C F nq nv nu E * S))
    (scene : MjData C F nq nv nu E -> result Px)
    (fuel DURATION : nat) (m : MjModel C) (d : MjData C F nq nv nu E) (s : S)
    (frames : seq Px) :
  option (result (MjData C F nq nv nu E * S * seq Px)) :=
  if clt (time d) (cnat C DURATION) then
    if fuel is fuel'.+1 then
      match control d s with
      | Value (d, s) =>
          let d := mj_step mj m d in
          match capture scene frames d with
          | Value frames => video_loop control scene fuel' DURATION m d s frames
          | Raise e => Some (Raise e)
          end
      | Raise e => Some (Raise e)
      end
    else None
  else Some (Value (d, s, frames)).

(** [renderer.update_scene(data)] *)
Definition plain_scene (d : MjData C F nq nv nu E) : result Px :=
  Value (render vw d None None).

(** [camera.lookat = data.body('torso').subtree_com] and
    [renderer.update_scene(data, camera)] *)
Definition tracking_scene (camera : MjvCamera) (d : MjData C F nq nv nu E) :
  result Px :=
  com <- subtree_com vw d "torso" ;;
  Value (render vw d (Some (set_lookat camera com)) None).

(** The control is left as it is. *)
Definition no_control (d : MjData C F nq nv nu E) (s : unit) :
  result (MjData C F nq nv nu E * unit) :=
  Value (d, s).

(** The humanoid falls from the keyframe. *)
Definition falling_video (fuel : nat) (m : MjModel C)
    (d : MjData C F nq nv nu E) :
  option (result (MjData C F nq nv nu E * unit * seq Px)) :=
  let d := mj_resetDataKeyframe mj m d 1 in
  video_loop no_control plain_scene fuel 3 m d tt [::].

(** [camera = mujoco.MjvCamera()], [mjv_defaultFreeCamera(model, camera)],
    [camera.distance = 2] *)
Definition tracking_camera (m : MjModel C) : MjvCamera :=
  set_distance (mjv_defaultFreeCamera vw m) 2%:R.

(** [data.ctrl = np.random.randn(model.nu)] *)
Definition random_control (d : MjData C F nq nv nu E) (g : rng np) :
  result (MjData C F nq nv nu E * rng np) :=
  let r := np_random_randn np 1 nu g in
  Value (set_ctrl d (row 0 r.1), r.2).

(** Noise in the controls. *)
Definition noisy_video (fuel : nat) (m : MjModel C)
    (d : MjData C F nq nv nu E) (g : rng np) :
  option (result (MjData C F nq nv nu E * rng np * seq Px)) :=
  let camera := tracking_camera m in
  let d := mj_resetDataKeyframe mj m d 1 in
  video_loop random_control (tracking_scene camera) fuel 3 m d g [::].

(** The setpoint held with the constant control [ctrl0]. *)
Definition setpoint_video (fuel : nat) (m : MjModel C)
    (d : MjData C F nq nv nu E) (camera : MjvCamera) (qpos0 : 'rV[F]_nq)
    (ctrl0 : 'rV[F]_nu) :
  option (result (MjData C F nq nv nu E * unit * seq Px)) :=
  let d := mj_resetData mj m d in
  let d := set_qpos d qpos0 in
  let d := set_ctrl d ctrl0 in
  video_loop no_control (tracking_scene camera) fuel 3 m d tt [::].

(** The loop of [stable_standing] with its frames. *)
Definition lqr_video (fuel : nat) (m : MjModel C) (d : MjData C F nq nv nu E)
    (qpos0 : 'rV[F]_nq) (ctrl0 : 'rV[F]_nu) (K : 'M[F]_(nu, nv + nv)) :
  option (result (MjData C F nq nv nu E * unit * seq Px)) :=
  video_loop (fun d s => Value (lqr_control mj m qpos0 ctrl0 K d, s))
    plain_scene fuel 5 m (initial_pose mj m d qpos0) tt [::].

(** The camera orbit of the last cell. [azimuth] reads [data.time] and not
    its argument. *)
Variable np_cos : F -> F.
Variable np_pi : F.

Definition unit_smooth (normalised_time : F) : F :=
  1 - np_cos (normalised_time * 2%:R * np_pi).

Definition azimuth (d : MjData C F nq nv nu E) (_ : F) : F :=
  100%:R
  + unit_smooth (seconds tm (time d) / DURATION%:R) * TOTAL_ROTATION%:R.

Definition orbiting_camera (m : MjModel C) : MjvCamera :=
  set_distance (mjv_defaultFreeCamera vw m) (23%:R / 10%:R).

Definition scene_option : MjvOption := MkOption true.

Definition orbiting_scene (camera : MjvCamera) (d : MjData C F nq nv nu E) :
  result Px :=
  let camera := set_azimuth camera (azimuth d (seconds tm (time d))) in
  Value (render hires d (Some camera) (Some scene_option)).

(** [data.ctrl = ctrl0 - K @ dx], [data.ctrl += CTRL_STD * perturb[step]]
    and [step += 1] *)
Definition disturbed_step (m : MjModel C) (qpos0 : 'rV[F]_nq)
    (ctrl0 : 'rV[F]_nu) (K : 'M[F]_(nu, nv + nv)) (CTRL_STD : 'rV[F]_nu)
    (perturb : seq 'rV[F]_nu) (d : MjData C F nq nv nu E) (step : nat) :
  result (MjData C F nq nv nu E * nat) :=
  d <- disturbed_control mj m qpos0 ctrl0 K CTRL_STD perturb d step ;;
  Value (d, step.+1).

(** The last cell with its frames. *)
Definition final_video (fuel : nat) (m : MjModel C) (balance_dofs : seq nat)
    (qpos0 : 'rV[F]_nq) (ctrl0 : 'rV[F]_nu) (K : 'M[F]_(nu, nv + nv))
    (d : MjData C F nq nv nu E) (g : rng np) :
  option (result (MjData C F nq nv nu E * nat * seq Px)) :=
  let camera := orbiting_camera m in
  match precompute_noise nu np m balance_dofs g with
  | Value n =>
      video_loop
        (disturbed_step m qpos0 ctrl0 K (noise_std n) (perturb n))
        (orbiting_scene camera) fuel DURATION m (initial_pose mj m d qpos0)
        0%N [::]
  | Raise e => Some (Raise e)
  end.

End Videos.

(** A viewer for the test double: a frame shows nothing. *)
Definition toy_viewer (C : clock) (F : archiRealFieldType) (k : nat) :
  Viewer C F k.+3 k.+3 1 unit unit :=
  MkViewer (fun _ => MkCamera 0 0 0) (fun _ _ => Value 0) (fun _ _ _ => tt).

Arguments final_video [C F nq nv nu E] mj np tm [Px] vw hires np_cos np_pi
  fuel%_nat_scope m balance_dofs%_seq_scope (qpos0 ctrl0 K)%_ring_scope d g.
Arguments noisy_video [C F nq nv nu E] mj np tm [Px] vw fuel%_nat_scope m d g.
Arguments random_control [C F nq nv nu E] np d g.

(** * Properties *)

Lemma bind_Value (A B : Type) (a : A) (k : A -> result B) :
  bind (Value a) k = k a.
Proof. by []. Qed.

Section ArgminLemmas.
Variable F : realFieldType.
Implicit Types (s : seq F) (x best : F).

Lemma size_linspace (a b : F) n : size (linspace a b n) = n.
Proof. by rewrite /linspace size_map size_iota. Qed.

Lemma nth_linspace (a b : F) n i : (i < n)%N ->
  nth 0 (linspace a b n) i = a + i%:R * ((b - a) / (n.-1)%:R).
Proof.
move=> lt_in; rewrite /linspace (nth_map 0%N) ?size_iota //.
by rewrite nth_iota // add0n.
Qed.

(** The running minimum of [np.argmin]: [pre] is the part of the array
    already read, [best] its least element and [ibest] the first place
    where it stands. *)
Lemma argmin_from_min pre s best ibest :
  (ibest < size pre)%N -> nth 0 pre ibest = best ->
  (forall j, (j < size pre)%N -> best <= nth 0 pre j) ->
  let r := argmin_from best ibest (size pre) s in
  (r < size (pre ++ s))%N /\
  forall j, (j < size (pre ++ s))%N -> nth 0 (pre ++ s) r <= nth 0 (pre ++ s) j.
Proof.
elim: s pre best ibest => [|x s IH] pre best ibest lt_ib nth_ib min_pre /=.
  by rewrite cats0; split=> // j lt_j; rewrite nth_ib; apply: min_pre.
have ->: pre ++ x :: s = rcons pre x ++ s by rewrite cat_rcons.
have size_rc: size (rcons pre x) = (size pre).+1 by rewrite size_rcons.
case: ifPn => [lt_x | le_best].
  rewrite -size_rc; apply: IH; rewrite ?size_rc //.
    by rewrite nth_rcons ltnn eqxx.
  move=> j; rewrite ltnS leq_eqVlt nth_rcons => /orP[/eqP-> | lt_j].
    by rewrite ltnn eqxx.
  by rewrite lt_j; apply: le_trans (ltW lt_x) (min_pre _ lt_j).
rewrite -size_rc; apply: IH; rewrite ?size_rc //.
- exact: ltnW.
- by rewrite nth_rcons lt_ib.
move=> j; rewrite ltnS leq_eqVlt nth_rcons => /orP[/eqP-> | lt_j].
  by rewrite ltnn eqxx leNgt.
by rewrite lt_j; apply: min_pre.
Qed.

Lemma np_argmin_min s : (0 < size s)%N ->
  exists2 r, np_argmin s = Value r &
    (r < size s)%N /\ forall j, (j < size s)%N -> nth 0 s r <= nth 0 s j.
Proof.
case: s => [|x s] //= _; exists (argmin_from x 0 1 s) => //.
have := @argmin_from_min [:: x] s x 0%N isT erefl.
by apply=> [[|j]].
Qed.

(** [np.argmin] keeps the first of several least elements. *)
Lemma argmin_from_first s best ibest i :
  (forall x, x \in s -> best <= x) -> argmin_from best ibest i s = ibest.
Proof.
elim: s i => [|x s IH] i //= min_s.
rewrite ltNge min_s ?mem_head //=; apply: IH => y y_s.
by apply: min_s; rewrite inE y_s orbT.
Qed.

Lemma micro_gt0 : 0 < micro F.
Proof. by rewrite /micro /milli; lra. Qed.

Lemma milli_lt1 : milli F < 1.
Proof. by rewrite /milli; lra. Qed.

Lemma offset_ge i : - milli F <= i%:R * micro F - milli F.
Proof. by rewrite lerDr mulr_ge0 ?ler0n // ltW ?micro_gt0. Qed.

End ArgminLemmas.

Section TrimSearch.
Variables (C : clock) (F : archiRealFieldType) (nq nv nu : nat) (E : Type).
Variable mj : Mujoco C F nq nv nu E.
Variable m : MjModel C.
Implicit Types (d : MjData C F nq nv nu E) (o : F).

Lemma vec_getT (A : Type) n (v : 'rV[A]_n) k (lt_kn : (k < n)%N) :
  vec_get v k = Value (v 0 (Ordinal lt_kn)).
Proof. by rewrite /vec_get insubT. Qed.

Lemma vec_iaddT (A : nmodType) n (v : 'rV[A]_n) k x (lt_kn : (k < n)%N) :
  vec_iadd v k x =
  Value (\row_j (if j == Ordinal lt_kn then v 0 j + x else v 0 j)).
Proof. by rewrite /vec_iadd insubT. Qed.

Lemma getitemT (A : Type) (x0 : A) (s : seq A) i :
  (i < size s)%N -> getitem s i = Value (nth x0 s i).
Proof. by move=> lt_i; rewrite /getitem (drop_nth x0). Qed.

Lemma getitemF (A : Type) (s : seq A) i :
  (size s <= i)%N -> getitem s i = Raise IndexError.
Proof. by move=> le_i; rewrite /getitem drop_oversize. Qed.

Lemma size_height_offsets : size (height_offsets F) = 2001%N.
Proof. exact: size_linspace. Qed.

Lemma nth_height_offsets i : (i < 2001)%N ->
  nth 0 (height_offsets F) i = i%:R * micro F - milli F.
Proof.
move=> lt_i; rewrite /height_offsets nth_linspace //= opprK /micro /milli.
by lra.
Qed.

Hypothesis reset_law : keyframe_reset_law mj m.
Hypothesis nq_gt2 : (2 < nq)%N.
Hypothesis nv_gt2 : (2 < nv)%N.

Lemma inverse_at_reset d d' o : inverse_at mj m d o = inverse_at mj m d' o.
Proof. by rewrite /inverse_at (reset_law d d'). Qed.

Lemma inverse_at_value d o : exists di, inverse_at mj m d o = Value di.
Proof. by rewrite /inverse_at vec_iaddT /=; eexists. Qed.

Lemma scan_value d0 offsets : forall d acc,
  exists d' fs,
    [/\ scan mj m d offsets acc = Value (d', acc ++ fs),
        size fs = size offsets
      & forall i, (i < size offsets)%N ->
        exists2 di, inverse_at mj m d0 (nth 0 offsets i) = Value di
                  & vec_get (qfrc_inverse di) 2 = Value (nth 0 fs i)].
Proof.
elim: offsets => [|o offsets IH] d acc /=.
  by exists d, [::]; rewrite cats0.
have [di Edi] := inverse_at_value d o.
rewrite Edi /= vec_getT /=.
have [d' [fs [-> size_fs fsP]]] := IH di (rcons acc (qfrc_inverse di 0 (Ordinal nv_gt2))).
exists d', (qfrc_inverse di 0 (Ordinal nv_gt2) :: fs); split=> //=.
- by rewrite cat_rcons.
- by rewrite size_fs.
case=> [_|i /fsP//]; exists di; last exact: vec_getT.
by rewrite (inverse_at_reset d0 d).
Qed.

End TrimSearch.

Section TrimMinimiser.
Variables (C : clock) (F : archiRealFieldType) (nq nv nu : nat) (E : Type).
Variable mj : Mujoco C F nq nv nu E.
Variable m : MjModel C.


End TrimMinimiser.

Section ToyFacts.
Variable C : clock.
Variable F : archiRealFieldType.
Variable k : nat.
Variable g : F -> F.
Variable m : MjModel C.

Lemma toy_reset_law : keyframe_reset_law (toy_mj C k g) m.
Proof. by []. Qed.

Lemma toy_inverse_at d o di :
  inverse_at (toy_mj C k g) m d o = Value di ->
  vec_get (qfrc_inverse di) 2 = Value (g o).
Proof.
rewrite /inverse_at (vec_iaddT _ _ (isT : (2 < k.+3)%N)) /= => -[<-].
rewrite (vec_getT _ (isT : (2 < k.+3)%N)) /= !mxE /=.
by rewrite add0r.
Qed.

End ToyFacts.


Section BoundaryOffsets.
Variables (C : clock) (F : archiRealFieldType) (nq nv nu : nat) (E : Type).
Variable mj : Mujoco C F nq nv nu E.
Variable m : MjModel C.

Lemma np_argmin_first (s : seq F) : (0 < size s)%N ->
  (forall j, (j < size s)%N -> nth 0 s 0 <= nth 0 s j) -> np_argmin s = Value 0%N.
Proof.
case: s => [|x s] //= _ min_x; rewrite argmin_from_first // => y /(nthP 0)[j lt_j <-].
exact: (min_x j.+1).
Qed.

(** C2, as the code has it. The search has no test on where the minimiser
    lies: it returns [height_offsets[idx]] also when [idx] is the first or
    the last index, that is the offset -0.001 or +0.001. *)
Theorem C2_boundary_offset_is_returned (d : MjData C F nq nv nu E) :
  keyframe_reset_law mj m -> (2 < nq)%N -> (2 < nv)%N ->
  exists s : trim_search C F nq nv nu E,
    [/\ find_best_offset mj m d = Value s,
        idx s = 0%N -> best_offset s = - milli F
      & idx s = 2000%N -> best_offset s = milli F].
Proof.
move=> reset_law nq_gt2 nv_gt2; rewrite /find_best_offset.
have [d' [fs [-> size_fs _]]] :=
  scan_value reset_law nq_gt2 nv_gt2 d (height_offsets F) d [::].
rewrite size_height_offsets /= in size_fs *.
have [|r -> [lt_r _]] := @np_argmin_min F (np_abs fs).
  by rewrite size_map size_fs.
rewrite size_map size_fs in lt_r.
rewrite /= (getitemT 0) ?size_height_offsets //= nth_height_offsets //.
by eexists; split=> //= ->; rewrite ?mul0r ?add0r // /micro /milli; lra.
Qed.

End BoundaryOffsets.

Section RisingForce.
Variable F : archiRealFieldType.
Let C := exact_clock F.

(** With the rising force the minimiser is the first scanned offset, and the
    search returns that offset, -0.001, as a value. *)
Lemma rising_force_search :
  exists s : trim_search C F 3 3 1 unit,
    [/\ find_best_offset (toy_mj C 0 (@rising_force F)) (@toy_model C 1)
          (toy_data C F 0) = Value s,
        idx s = 0%N,
        best_offset s = - milli F
      & forall i, (0 < i < 2001)%N ->
          `|nth 0 (vertical_forces s) 0| < `|nth 0 (vertical_forces s) i| ].
Proof.
rewrite /find_best_offset.
set mj := toy_mj _ _; set m := toy_model _; set d := toy_data _ _ _.
have [d' [fs [-> size_fs fsP]]] :=
  scan_value (@toy_reset_law _ _ 0 (@rising_force F) m) isT isT d
    (height_offsets F) d [::].
rewrite size_height_offsets /= in size_fs fsP *.
have nth_fs i : (i < 2001)%N -> nth 0 fs i = 1 + (i%:R * micro F - milli F).
  move=> lt_i; have [di /toy_inverse_at] := fsP i lt_i.
  by rewrite nth_height_offsets // => -> [].
have abs_fs i : (i < 2001)%N ->
    `|nth 0 fs i| = 1 + (i%:R * micro F - milli F).
  move=> lt_i; rewrite nth_fs // ger0_norm // -[0](subrr 1) lerD2l.
  by apply: le_trans (offset_ge F i); rewrite lerN2 ltW ?milli_lt1.
have ->: np_argmin (np_abs fs) = Value 0%N.
  apply: np_argmin_first; rewrite size_map size_fs // => j lt_j.
  rewrite !(nth_map 0) ?size_fs // !abs_fs // lerD2l.
  by rewrite mul0r add0r offset_ge.
rewrite bind_Value (getitemT 0) ?size_height_offsets // nth_height_offsets //.
rewrite bind_Value; eexists; split=> //=; first by rewrite mul0r add0r.
move=> i /andP[gt0_i lt_i]; rewrite !abs_fs // ltrD2l mul0r add0r ltrDr.
by rewrite mulr_gt0 ?ltr0n ?micro_gt0.
Qed.

End RisingForce.

(** C2 as stated fails: on the test double with the rising force the
    minimiser lies at the lower boundary of the scan and no failure is
    reported. *)
Lemma C2_boundary_minimiser_not_reported :
  exists s : trim_search (exact_clock rat) rat 3 3 1 unit,
    [/\ find_best_offset (toy_mj _ 0 (@rising_force rat))
          (@toy_model (exact_clock rat) 1) (toy_data _ _ 0) = Value s,
        idx s = 0%N,
        best_offset s = - milli rat
      & forall i, (0 < i < 2001)%N ->
          `|nth 0 (vertical_forces s) 0| < `|nth 0 (vertical_forces s) i| ].
Proof. exact: (rising_force_search rat). Qed.

(** C2 as the code has it, on the test double with the rising force. *)
Lemma C2_boundary_offset_witness :
  exists s : trim_search (exact_clock rat) rat 3 3 1 unit,
    [/\ find_best_offset (toy_mj _ 0 (@rising_force rat))
          (@toy_model (exact_clock rat) 1) (toy_data _ _ 0) = Value s,
        idx s = 0%N -> best_offset s = - milli rat
      & idx s = 2000%N -> best_offset s = milli rat].
Proof.
exact: (C2_boundary_offset_is_returned (toy_data _ _ 0)
          (@toy_reset_law (exact_clock rat) rat 0 (@rising_force rat)
             (@toy_model (exact_clock rat) 1)) isT isT).
Defined.

Section SquaredNorm.
Variable F : realFieldType.

Lemma sqnormE n (x : 'rV[F]_n) : sqnorm x = \sum_j x 0 j ^+ 2.
Proof. by rewrite /sqnorm mxE; apply: eq_bigr => j _; rewrite mxE expr2. Qed.

Lemma sqnorm_ge0 n (x : 'rV[F]_n) : 0 <= sqnorm x.
Proof. by rewrite sqnormE sumr_ge0 // => j _; rewrite sqr_ge0. Qed.

Lemma mx11_tr (M : 'M[F]_1) : M^T = M.
Proof. by apply/matrixP=> i j; rewrite mxE !ord1. Qed.

Lemma addmxE m n (A B : 'M[F]_(m, n)) i j : (A + B) i j = A i j + B i j.
Proof. by rewrite mxE. Qed.

Lemma sqnormD n (x y : 'rV[F]_n) :
  sqnorm (x + y) = sqnorm x + (x *m y^T) 0 0 *+ 2 + sqnorm y.
Proof.
rewrite /sqnorm linearD /= mulmxDl !mulmxDr.
rewrite -[y *m x^T]mx11_tr trmx_mul trmxK !addmxE mulr2n; ring.
Qed.

End SquaredNorm.

Section ControlSetpoint.
Variables (C : clock) (F : archiRealFieldType) (nq nv nu : nat) (E : Type).
Variable mj : Mujoco C F nq nv nu E.
Variable np : Numlib F.


End ControlSetpoint.

Section ToyMoment.
Variables (C : clock) (F : archiRealFieldType) (k : nat) (g : F -> F).

Lemma toy_moment_gram :
  delta_mx 0 (toy_z k) *m (delta_mx 0 (toy_z k))^T = (1%:M : 'M[F]_1).
Proof.
by rewrite trmx_delta mul_delta_mx; apply/matrixP=> i j; rewrite !mxE !ord1.
Qed.

Lemma toy_moore_penrose (d : MjData C F k.+3 k.+3 1 unit) :
  let moment := actuator_moment (toy_mj C k g) d in
  moore_penrose moment (np_linalg_pinv (toy_np F) 1 k.+3 moment).
Proof.
rewrite /actuator_moment /=; split.
- by rewrite toy_moment_gram mul1mx.
- by rewrite -mulmxA toy_moment_gram mulmx1.
- by rewrite toy_moment_gram trmx1.
- by rewrite trmx_mul trmxK.
Qed.

End ToyMoment.


Section JointTables.
Variable C : clock.
Variable m : MjModel C.

Lemma comprehension_value (A B : Type) (f : A -> result B) (Q : pred A)
    (P : pred B) (s : seq A) :
  (forall x, Q x -> exists2 y, f x = Value y & P y) -> all Q s ->
  exists2 ys, comprehension f s = Value ys & all P ys.
Proof.
move=> fP; elim: s => [|x s IH] /=; first by exists [::].
case/andP=> /fP[y -> Py] /IH[ys -> Pys] /=.
by exists (y :: ys); rewrite //= Py.
Qed.

(** Every name of the joint table is found by [model.joint(name)]. *)
Lemma joint_names_found (pre js : seq mjJoint) :
  all (fun name => has (fun j => String.eqb (jname j) name) (pre ++ js))
      [seq jname j | j <- js].
Proof.
elim: js pre => [|j js IH] pre //=; rewrite -cat_rcons IH andbT.
by rewrite has_cat has_rcons String.eqb_refl.
Qed.

Lemma dofadr_named_value (P : pred nat) (name : string) :
  all P [seq dofadr j | j <- joints m] ->
  has (fun j => String.eqb (jname j) name) (joints m) ->
  exists2 i, dofadr_named m name = Value i & P i.
Proof.
rewrite /dofadr_named /joint_named; elim: (joints m) => [|j js IH] //=.
case/andP=> Pj Pjs; case: ifP => [_ _ | _ /(IH Pjs)//].
by exists (dofadr j).
Qed.

(** The lists of cell 36 are values, and every entry is the address of a
    joint of the table. *)
Lemma balance_dofs_value (P : pred nat) :
  all P [seq dofadr j | j <- joints m] ->
  exists2 b, balance_dofs m = Value b & all P b.
Proof.
move=> all_dofs; rewrite /balance_dofs /abdomen_dofs /left_leg_dofs.
have found keep :
    all (fun name => has (fun j => String.eqb (jname j) name) (joints m))
        [seq name <- joint_names m | keep name].
  rewrite all_filter; apply: sub_all (joint_names_found [::] (joints m)).
  by move=> name /= ->; rewrite implybT.
have value keep :=
  comprehension_value (fun name => @dofadr_named_value P name all_dofs) (found keep).
have [a -> /= Pa] := value (fun name => str_in "abdomen" name && ~~ str_in "z" name).
have [l -> /= Pl] := value (fun name =>
  [&& str_in "left" name,
      [|| str_in "hip" name, str_in "knee" name | str_in "ankle" name]
    & ~~ str_in "z" name]).
by exists (a ++ l); rewrite // all_cat Pa.
Qed.

End JointTables.

Section JointCost.
Variable F : archiRealFieldType.
Variable nv : nat.
Implicit Types (M : 'M[F]_nv) (dofs : seq nat).

Lemma imul_diagT M dofs c : all (fun i => (i < nv)%N) dofs ->
  imul_diag M dofs c =
  Value (\matrix_(i, j)
           if (i == j) && (nat_of_ord i \in dofs) then M i j * c else M i j).
Proof. by rewrite /imul_diag => ->. Qed.

Lemma root_dofs_lt : (5 < nv)%N -> all (fun i => (i < nv)%N) root_dofs.
Proof.
by move=> lt5; apply/allP=> i; rewrite mem_iota /= add0n => /leq_trans->.
Qed.

Lemma other_dofs_lt b : all (fun i => (i < nv)%N) (other_dofs nv b).
Proof.
apply/allP=> i; rewrite mem_filter mem_iota => /and3P[_ le6 lt_i].
case: (leqP 6 nv) lt_i => [le6nv | /ltnW le_nv6]; first by rewrite subnKC.
by rewrite (eqP (le_nv6 : (nv - 6 == 0)%N)) addn0 ltnNge le6.
Qed.

(** The entries of [Qjoint]. *)
Lemma Qjoint_value b : (5 < nv)%N -> all (fun i => (i < nv)%N) b ->
  Qjoint F nv b =
  Value (\matrix_(i, j)
           if i != j then 0
           else if (i < 6)%N then 0
           else if nat_of_ord i \in b then BALANCE_JOINT_COST F
           else OTHER_JOINT_COST F).
Proof.
move=> lt5 lt_b; rewrite /Qjoint imul_diagT ?root_dofs_lt // bind_Value.
rewrite imul_diagT // bind_Value imul_diagT ?other_dofs_lt //.
congr Value; apply/matrixP=> i j; rewrite !mxE.
have [-> | ne_ij] //= := eqVneq i j.
rewrite /root_dofs /other_dofs mem_filter !mem_iota /= add0n.
have [lt6 | le6] := ltnP j 6.
  by rewrite mulr0 !mul0r; case: (_ \in b); rewrite ?andbF ?mul0r.
have -> : (j < 6 + (nv - 6))%N by rewrite subnKC.
by case: (_ \in b); rewrite /= ?mul1r.
Qed.

End JointCost.

Section JointRegularisation.
Variables (C : clock) (F : archiRealFieldType) (nv : nat).


End JointRegularisation.


Section CostMatrix.
Variable F : archiRealFieldType.
Variable nv : nat.

Lemma Q_block (Qp : 'M[F]_nv) : Q Qp = block_mx Qp 0 0 0.
Proof. by rewrite /Q block_mxEv row_mx0. Qed.

Lemma Q_symmetric (Qp : 'M[F]_nv) : symmetric Qp -> symmetric (Q Qp).
Proof. by rewrite /symmetric Q_block tr_block_mx !trmx0 => ->. Qed.

Lemma qform_Q (Qp : 'M[F]_nv) (x : 'rV[F]_(nv + nv)) :
  qform (Q Qp) x = qform Qp (lsubmx x).
Proof.
rewrite /qform Q_block -{1 2}[x]hsubmxK mul_row_block !mulmx0 !addr0.
by rewrite tr_row_mx mul_row_col mul0mx addr0.
Qed.

Lemma qform_gram k (J : 'M[F]_(k, nv)) (x : 'rV[F]_nv) :
  qform (J^T *m J) x = sqnorm (x *m J^T).
Proof. by rewrite /qform /sqnorm trmx_mul trmxK !mulmxA. Qed.

Lemma qformD (A B : 'M[F]_nv) x : qform (A + B) x = qform A x + qform B x.
Proof. by rewrite /qform mulmxDr mulmxDl mxE. Qed.

Lemma qformZ c (A : 'M[F]_nv) x : qform (c *: A) x = c * qform A x.
Proof. by rewrite /qform -scalemxAr -scalemxAl mxE. Qed.

Lemma qform_diag (w : 'rV[F]_nv) x : qform (diag_mx w) x = \sum_i w 0 i * x 0 i ^+ 2.
Proof.
rewrite /qform mul_mx_diag mxE; apply: eq_bigr => i _.
by rewrite !mxE; ring.
Qed.

(** [Qjoint] is a diagonal matrix of weights that are not negative. *)
Lemma Qjoint_diag b : (5 < nv)%N -> all (fun i => (i < nv)%N) b ->
  exists2 w : 'rV[F]_nv,
    Qjoint F nv b = Value (diag_mx w) & forall i, 0 <= w 0 i.
Proof.
move=> lt5 lt_b; rewrite Qjoint_value //.
exists (\row_i (if (i < 6)%N then 0
                else if nat_of_ord i \in b then BALANCE_JOINT_COST F
                else OTHER_JOINT_COST F)).
  congr Value; apply/matrixP=> i j; rewrite !mxE.
  by have [->|] := eqVneq i j; rewrite ?mulr1n ?mulr0n.
move=> i; rewrite mxE /BALANCE_JOINT_COST /OTHER_JOINT_COST.
by do 2!case: ifP => _ //; rewrite ?ler0n // divr_ge0 ?ler0n.
Qed.

Lemma Qpos_symmetric (J : 'M[F]_(3, nv)) (w : 'rV[F]_nv) :
  symmetric (Qpos (J^T *m J) (diag_mx w)).
Proof.
by rewrite /symmetric /Qpos linearD linearZ /= trmx_mul trmxK tr_diag_mx.
Qed.

Lemma Qpos_psd (J : 'M[F]_(3, nv)) (w : 'rV[F]_nv) :
  (forall i, 0 <= w 0 i) ->
  positive_semidefinite (Qpos (J^T *m J) (diag_mx w)).
Proof.
move=> w_ge0 x; rewrite /Qpos qformD qformZ qform_gram qform_diag addr_ge0 //.
  by rewrite mulr_ge0 ?sqnorm_ge0 // /BALANCE_COST ler0n.
by apply: sumr_ge0 => i _; rewrite mulr_ge0 ?sqr_ge0.
Qed.

End CostMatrix.

Section StateCost.
Variables (C : clock) (F : archiRealFieldType) (nq nv nu : nat) (E : Type).
Variable mj : Mujoco C F nq nv nu E.


End StateCost.


Section Definiteness.
Variable F : realFieldType.

Lemma sqnorm_eq0 n (x : 'rV[F]_n) : sqnorm x = 0 -> x = 0.
Proof.
rewrite sqnormE => /psumr_eq0P sq0; apply/rowP=> j; rewrite mxE.
by apply/eqP; rewrite -(sqrf_eq0 (x 0 j)) sq0 // => i _; rewrite sqr_ge0.
Qed.

Lemma sqnorm_gt0 n (x : 'rV[F]_n) : x != 0 -> 0 < sqnorm x.
Proof.
move=> nz_x; rewrite lt0r sqnorm_ge0 andbT.
by apply: contra_neq nz_x; apply: sqnorm_eq0.
Qed.

Lemma qform1 n (x : 'rV[F]_n) : qform 1%:M x = sqnorm x.
Proof. by rewrite /qform mulmx1. Qed.

Lemma identity_pd n : positive_definite (1%:M : 'M[F]_n).
Proof. by move=> x nz_x; rewrite qform1 sqnorm_gt0. Qed.

Lemma identity_psd n : positive_semidefinite (1%:M : 'M[F]_n).
Proof. by move=> x; rewrite qform1 sqnorm_ge0. Qed.

Lemma qform_congr n m (B : 'M[F]_(n, m)) (X : 'M[F]_n) (x : 'rV[F]_m) :
  qform (B^T *m X *m B) x = qform X (x *m B^T).
Proof. by rewrite /qform trmx_mul trmxK !mulmxA. Qed.

(** A positive definite matrix has an inverse. *)
Lemma pd_unitmx n (M : 'M[F]_n) : positive_definite M -> M \in unitmx.
Proof.
move=> pdM; rewrite -row_free_unit -kermx_eq0; apply/eqP/row_matrixP=> i.
rewrite row0; apply/eqP; apply: contraT => /pdM.
by rewrite /qform -row_mul mulmx_ker row0 mul0mx mxE ltxx.
Qed.

End Definiteness.

Section RiccatiGain.
Variables (F : archiRealFieldType) (nv nu : nat).
Variable np : Numlib F.
Implicit Types (A Q : 'M[F]_(nv + nv)) (B : 'M[F]_(nv + nv, nu)) (R : 'M[F]_nu).

Lemma gain_denominator_pd B R (X : 'M[F]_(nv + nv)) :
  positive_definite R -> positive_semidefinite X ->
  positive_definite (R + B^T *m X *m B).
Proof.
move=> pdR psdX x nz_x; rewrite qformD qform_congr.
by rewrite -[0]addr0 ltr_leD ?pdR ?psdX.
Qed.

Lemma riccati_rearrange (V : zmodType) (s x t q : V) :
  s - x - t + q = 0 -> x = q + s - t.
Proof.
move/eqP; rewrite addrAC [s - x + q]addrAC addrAC subr_eq0 => /eqP <-.
by rewrite [q + s]addrC.
Qed.


End RiccatiGain.

Section CodeWeights.
Variable F : archiRealFieldType.

(** The control weight of the notebook, the identity, is symmetric and
    positive definite. *)
Lemma R_symmetric_pd nu : symmetric (R F nu) /\ positive_definite (R F nu).
Proof. by split; [exact: trmx1 | exact: identity_pd]. Qed.

(** The solver of the test double meets the contract where [A] is zero. *)
Lemma toy_solver_contract n m (B : 'M[F]_(n, m)) (Q : 'M[F]_n) (R : 'M[F]_m) :
  dare_solver_contract (toy_np F) 0 B Q R.
Proof.
move=> symQ psdQ _ _ _; exists Q; split=> //.
by rewrite /scipy_dare !(trmx0, mul0mx, mulmx0) sub0r subr0 addNr.
Qed.

Lemma zero_stabilizable n m (B : 'M[F]_(n, m)) : stabilizable 0 B.
Proof.
exists 0; exists 1%:M; split; [exact: trmx1 | exact: identity_pd |].
by rewrite mulmx0 subr0 trmx0 !mul0mx subr0; apply: identity_pd.
Qed.

End CodeWeights.


Section Linearizer.
Variables (C : clock) (F : archiRealFieldType) (nq nv nu : nat) (E : Type).
Variable mj : Mujoco C F nq nv nu E.
Variables X Y : Type.
Variable transitionFD :
  MjModel C -> MjData C F nq nv nu E -> F -> bool ->
  'M[X]_(nv + nv) * 'M[X]_(nv + nv, nu).
Variable solve :
  'M[X]_(nv + nv) -> 'M[X]_(nv + nv, nu) -> 'M[F]_(nv + nv) -> 'M[F]_nu -> result Y.


End Linearizer.


Section ClosedLoop.
Variables (C : clock) (F : archiRealFieldType) (nq nv nu : nat) (E : Type).
Variable mj : Mujoco C F nq nv nu E.
Variable m : MjModel C.
Variables (qpos0 : 'rV[F]_nq) (ctrl0 : 'rV[F]_nu) (K : 'M[F]_(nu, nv + nv)).
Variables (CTRL_STD : 'rV[F]_nu) (perturb : seq 'rV[F]_nu).
Implicit Types (d : MjData C F nq nv nu E) (n fuel step : nat).

(** The disturbance sample of a tick. *)
Let sample step : 'rV[F]_nu :=
  \row_i (CTRL_STD 0 i * (nth 0 perturb step) 0 i).

Lemma lqr_control_spec d :
  lqr_control mj m qpos0 ctrl0 K d
  = set_ctrl d (spec_command mj m qpos0 0 ctrl0 K 0 d).
Proof.
by rewrite /lqr_control /spec_command /matvec /dx /dq /manifold_difference
           subr0 addr0.
Qed.

Lemma disturbed_control_spec d step : (step < size perturb)%N ->
  disturbed_control mj m qpos0 ctrl0 K CTRL_STD perturb d step
  = Value (set_ctrl d (spec_command mj m qpos0 0 ctrl0 K (sample step) d)).
Proof.
move=> lt_step; rewrite /disturbed_control (getitemT 0) // bind_Value.
by rewrite lqr_control_spec /= /spec_command addr0.
Qed.

Lemma lqr_loop_spec T n fuel d :
  (forall k, (k < n)%N ->
     clt (time (spec_run mj m qpos0 0 ctrl0 K (fun _ => 0) k d 0)) (cnat C T)) ->
  lqr_loop mj (n + fuel) T m qpos0 ctrl0 K d
  = lqr_loop mj fuel T m qpos0 ctrl0 K
      (spec_run mj m qpos0 0 ctrl0 K (fun _ => 0) n d 0).
Proof.
have shift n' d' s : spec_run mj m qpos0 0 ctrl0 K (fun _ => 0) n' d' s
                   = spec_run mj m qpos0 0 ctrl0 K (fun _ => 0) n' d' 0.
  by elim: n' d' s => //= n' IH d' s; rewrite IH [RHS]IH.
elim: n d => [|n IH] d //= in_time; rewrite (in_time 0%N) //= lqr_control_spec.
rewrite shift -/(spec_tick _ _ _ _ _ _ _ _) IH // => k lt_k.
by rewrite -(shift _ _ 1%N); apply: (in_time k.+1).
Qed.

Lemma disturbed_loop_spec n fuel d step :
  (step + n <= size perturb)%N ->
  (forall k, (k < n)%N ->
     clt (time (spec_run mj m qpos0 0 ctrl0 K sample k d step))
         (cnat C DURATION)) ->
  disturbed_loop mj (n + fuel) m qpos0 ctrl0 K CTRL_STD perturb d step
  = disturbed_loop mj fuel m qpos0 ctrl0 K CTRL_STD perturb
      (spec_run mj m qpos0 0 ctrl0 K sample n d step) (step + n).
Proof.
elim: n d step => [|n IH] d step /=; first by rewrite addn0.
rewrite addnS -addSn => le_size in_time; rewrite (in_time 0%N) //=.
have lt_step: (step < size perturb)%N.
  by apply: leq_trans le_size; rewrite leq_addr.
rewrite disturbed_control_spec //.
by rewrite IH // => k lt_k; apply: (in_time k.+1).
Qed.


End ClosedLoop.


Section ClockOfTheLoop.
Variables (C : clock) (F : archiRealFieldType) (nq nv nu : nat) (E : Type).
Variable mj : Mujoco C F nq nv nu E.
Variable m : MjModel C.
Variables (qpos0 : 'rV[F]_nq) (ctrl0 : 'rV[F]_nu) (K : 'M[F]_(nu, nv + nv)).
Variables (CTRL_STD : 'rV[F]_nu) (perturb : seq 'rV[F]_nu).
Implicit Types (d : MjData C F nq nv nu E) (fuel step : nat).

Hypothesis step_time : step_time_law mj m.

(** Whether and where the disturbed loop stops is decided by the clock
    alone. *)
Lemma disturbed_loop_clock fuel d step :
  omap (result_map snd)
    (disturbed_loop mj fuel m qpos0 ctrl0 K CTRL_STD perturb d step)
  = clock_loop fuel DURATION (opt_timestep m) (size perturb) (time d) step.
Proof.
elim: fuel d step => [|fuel IH] d step /=; case: ifP => // _.
have [lt_step | le_step] := ltnP step (size perturb); last first.
  by rewrite /disturbed_control (getitemF le_step).
by rewrite /disturbed_control (getitemT 0) // bind_Value IH step_time.
Qed.

Lemma disturbed_loop_raises fuel d step e :
  clock_loop fuel DURATION (opt_timestep m) (size perturb) (time d) step
    = Some (Raise e) ->
  disturbed_loop mj fuel m qpos0 ctrl0 K CTRL_STD perturb d step
    = Some (Raise e).
Proof. by rewrite -disturbed_loop_clock; case: disturbed_loop => [[]|]//= ? [->]. Qed.

Lemma disturbed_loop_returns fuel d step n :
  clock_loop fuel DURATION (opt_timestep m) (size perturb) (time d) step
    = Some (Value n) ->
  exists d', disturbed_loop mj fuel m qpos0 ctrl0 K CTRL_STD perturb d step
             = Some (Value (d', n)).
Proof.
rewrite -disturbed_loop_clock; case: disturbed_loop => [[[d' n']|]|] //= [<-].
by exists d'.
Qed.

End ClockOfTheLoop.

Lemma clock_loop_fuel (C : clock) fuel extra T (ts : C) n t step r :
  clock_loop fuel T ts n t step = Some r ->
  clock_loop (fuel + extra) T ts n t step = Some r.
Proof.
elim: fuel t step => [|fuel IH] t step.
  by rewrite /=; case Et: (clt t _) => // <-; case: extra => [|extra] /=; rewrite Et.
rewrite addSn /=; case: (clt t _) => //.
by case: (step < n)%N => //; apply: IH.
Qed.

Section ExactTime.
Variable F : archiRealFieldType.
Let C := exact_clock F.
Variables (ts : F) (N : nat).
Hypothesis ts_gt0 : 0 < ts.
Hypothesis nstepsE : cceil_div (cnat C DURATION) (ts : C) = Value (Posz N).

Lemma in_time_lt_nsteps k : k%:R * ts < DURATION%:R -> (k < N)%N.
Proof.
move: nstepsE; rewrite /= gt_eqF // => -[ceilE] lt_k.
rewrite -(ltr_nat F) -[N%:R]/((Posz N)%:~R) -ceilE.
by apply: lt_le_trans (ceil_ge _); rewrite ltr_pdivlMr.
Qed.

(** With exact time the step counter stays below [nsteps], and the loop
    ends after at most [nsteps] iterations. *)
Lemma clock_loop_exact fuel k : (k <= N)%N -> (N - k <= fuel)%N ->
  exists2 n, (n <= N)%N &
    clock_loop (C := C) fuel DURATION ts N (k%:R * ts) k = Some (Value n).
Proof.
elim: fuel k => [|fuel IH] k le_k le_fuel /=; case: ifP => [lt_k | _];
  try by exists k.
- by have:= in_time_lt_nsteps lt_k; rewrite -subn_gt0 ltnNge le_fuel.
- have lt_kN := in_time_lt_nsteps lt_k; rewrite lt_kN.
  have -> : k%:R * ts + ts = k.+1%:R * ts by rewrite -natr1 mulrDl mul1r.
  by apply: IH => //; rewrite subnS -ltnS prednK ?subn_gt0.
Qed.

End ExactTime.

Section NoiseShape.
Variables (C : clock) (F : archiRealFieldType) (nu : nat).
Variable np : Numlib F.
Implicit Types (a v c ker : seq F) (M : seq 'rV[F]_nu).

Lemma size_rows n p (A : 'M[F]_(n, p)) : size (rows A) = n.
Proof. by rewrite /rows size_map size_enum_ord. Qed.

Lemma np_convolve_same_value a v :
  (0 < size v)%N -> (size v <= size a)%N ->
  exists2 c, np_convolve_same a v = Value c & size c = size a.
Proof.
move=> v_gt0 le_va; have a_gt0 := leq_trans v_gt0 le_va.
rewrite /np_convolve_same (gtn_eqF a_gt0) (gtn_eqF v_gt0) /= ltnNge le_va /=.
eexists; first by [].
rewrite size_take size_drop size_map size_iota.
case: (size v) v_gt0 {le_va} => // p _; rewrite addnS /=.
have le_half: (p./2 <= p)%N by rewrite leq_half_double -addnn leqW ?leq_addr.
rewrite -addnBA //; case: ltnP => // le_a.
by apply/eqP; rewrite eqn_leq le_a leq_addr.
Qed.

Lemma set_column_value M (i : 'I_nu) c : size c = size M ->
  exists2 M', set_column M i c = Value M' & size M' = size M.
Proof.
move=> eq_size; rewrite /set_column eq_size eqxx; eexists; first by [].
by rewrite size_map size_zip eq_size minnn.
Qed.

Lemma smooth_value ker M (channels : seq 'I_nu) :
  (0 < size ker)%N -> (size ker <= size M)%N ->
  exists2 M', smooth ker M channels = Value M' & size M' = size M.
Proof.
move=> ker_gt0; elim: channels M => [|i channels IH] M le_ker /=.
  by exists M.
have [|c -> size_c] := @np_convolve_same_value (column M i) ker ker_gt0.
  by rewrite size_map.
rewrite size_map in size_c; have [M' EM' size_M'] := set_column_value i size_c.
by rewrite bind_Value EM' bind_Value -size_M'; apply: IH; rewrite size_M'.
Qed.

Lemma kernel_value w :
  exists2 ker, kernel np (Posz w) = Value ker & size ker = w.
Proof. by eexists; rewrite // !size_map size_iota. Qed.

(** [width] is [nsteps / 15] rounded down. *)
Lemma width_bounds N : (15 <= N)%N ->
  exists2 w, width F (Posz N) = Posz w & (0 < w <= N)%N.
Proof.
move=> le15; rewrite /width /py_int /CTRL_RATE /DURATION.
set x : F := _ / _.
have xE : x = N%:R / 15%:R by rewrite /x -[(Posz N)%:~R]/(N%:R); lra.
have x_ge1 : 1 <= x.
  by rewrite xE ler_pdivlMr ?ltr0n // mul1r ler_nat.
have x_leN : x <= N%:R.
  by rewrite xE ler_pdivrMr ?ltr0n // ler_peMr ?ler0n // ler1n.
rewrite (le_trans ler01 x_ge1).
have fl_gt0 : 0 < Num.floor x by rewrite floor_gt0.
case Efl: (Num.floor x) fl_gt0 => [w|//] w_gt0; exists w => //.
rewrite -ltz_nat w_gt0 /= -lez_nat -Efl.
by rewrite -(ler_int F) (le_trans (floor_le _)).
Qed.

End NoiseShape.

Section NoiseValue.
Variables (C : clock) (F : archiRealFieldType) (nu : nat).
Variable np : Numlib F.
Variable m : MjModel C.

Lemma precompute_noise_value (b : seq nat) (g : rng np) (N : nat) (std : 'rV[F]_nu) :
  nsteps m = Value (Posz N) -> (15 <= N)%N -> CTRL_STD F nu m b = Value std ->
  exists nz : noise nu np,
    [/\ precompute_noise nu np m b g = Value nz, noise_nsteps nz = Posz N,
        size (perturb nz) = N & noise_std nz = std].
Proof.
move=> EN le15 Estd; rewrite /precompute_noise EN bind_Value /randn bind_Value.
rewrite Estd bind_Value; have [w -> /andP[w_gt0 le_w]] := width_bounds F le15.
have [ker -> size_ker] := kernel_value np w; rewrite bind_Value.
set M := rows _.
have ker_gt0 : (0 < size ker)%N by rewrite size_ker.
have le_ker : (size ker <= size M)%N by rewrite size_ker size_rows.
have [M' -> size_M'] := smooth_value (enum 'I_nu) ker_gt0 le_ker.
by eexists; split; rewrite //= size_M' size_rows.
Qed.

End NoiseValue.

Section DisturbedLoopFuel.
Variables (C : clock) (F : archiRealFieldType) (nq nv nu : nat) (E : Type).
Variable mj : Mujoco C F nq nv nu E.
Variable m : MjModel C.
Variables (qpos0 : 'rV[F]_nq) (ctrl0 : 'rV[F]_nu) (K : 'M[F]_(nu, nv + nv)).
Variables (std : 'rV[F]_nu) (perturb : seq 'rV[F]_nu).

Lemma disturbed_loop_fuel fuel extra (d : MjData C F nq nv nu E) step r :
  disturbed_loop mj fuel m qpos0 ctrl0 K std perturb d step = Some r ->
  disturbed_loop mj (fuel + extra) m qpos0 ctrl0 K std perturb d step = Some r.
Proof.
elim: fuel d step => [|fuel IH] d step.
  by rewrite /=; case Et: (clt _ _) => // <-; case: extra => [|extra] /=; rewrite Et.
rewrite addSn /=; case: (clt _ _) => //.
by case: disturbed_control => // d'; apply: IH.
Qed.

End DisturbedLoopFuel.

Section ExactRun.
Variables (F : archiRealFieldType) (nq nv nu : nat) (E : Type).
Let C := exact_clock F.
Variable mj : Mujoco C F nq nv nu E.
Variable m : MjModel C.
Variables (qpos0 : 'rV[F]_nq) (ctrl0 : 'rV[F]_nu) (K : 'M[F]_(nu, nv + nv)).
Variables (std : 'rV[F]_nu) (perturb : seq 'rV[F]_nu).

(** With exact time the sizing of the trace is right: every index the loop
    uses is below [nsteps], and the loop ends within [nsteps] iterations. *)
Lemma exact_time_run_in_bounds (d : MjData C F nq nv nu E) (N : nat) :
  0 < (opt_timestep m : F) -> step_time_law mj m -> data_reset_law mj m ->
  nsteps m = Value (Posz N) -> size perturb = N ->
  exists (d' : MjData C F nq nv nu E) (n : nat),
    (n <= N)%N /\
    forall extra,
      disturbed_loop mj (N + extra) m qpos0 ctrl0 K std perturb
        (initial_pose mj m d qpos0) 0
      = Some (Value (d', n)).
Proof.
move=> ts_gt0 step_time [_ reset_time] EN size_perturb; subst N.
have [|n le_n] :=
  @clock_loop_exact F _ _ ts_gt0 EN (size perturb) 0 (leq0n _).
  by rewrite subn0.
rewrite mul0r -[0]/(czero C) -(reset_time d).
rewrite -[time (mj_resetData _ _ _)]/(time (initial_pose mj m d qpos0)).
move=> /(disturbed_loop_returns qpos0 ctrl0 K std step_time)[d' Ed'].
by exists d', n; split=> // extra; apply: disturbed_loop_fuel.
Qed.

End ExactRun.

Section ToyLaws.
Variables (C : clock) (F : archiRealFieldType) (k : nat) (g : F -> F).
Variable m : MjModel C.

Lemma toy_step_time : step_time_law (toy_mj C k g) m.
Proof. by []. Qed.

Lemma toy_data_reset : data_reset_law (toy_mj C k g) m.
Proof. by []. Qed.

Lemma toy_seed : seed_law (toy_np F).
Proof. by []. Qed.

Lemma toy_CTRL_STD (ts : C) :
  CTRL_STD F 1 (toy_model ts) [:: 6; 7]%N = Value (\row_i BALANCE_STD F).
Proof.
rewrite /CTRL_STD /=; congr Value; apply/rowP=> i.
by rewrite !mxE ord1.
Qed.

End ToyLaws.

(** The timestep 0.01 in binary64: [nsteps] is 1200, but 1200 additions of
    the timestep leave the time just below 12, so that the loop asks for
    [perturb[1200]]. *)
Lemma binary64_clock_overruns :
  nsteps (@toy_model f64_clock 0.01%float) = Value (Posz 1200)
  /\ clock_loop (C := f64_clock) 1201 DURATION 0.01%float 1200 0%float 0
     = Some (Raise IndexError).
Proof. by split; vm_compute. Qed.

(** The timestep 0.005 in binary64 (the one of the humanoid model shipped
    with MuJoCo): the loop ends after 2400 iterations, within the trace. *)
Lemma binary64_clock_in_bounds :
  nsteps (@toy_model f64_clock 0.005%float) = Value (Posz 2400)
  /\ clock_loop (C := f64_clock) 2400 DURATION 0.005%float 2400 0%float 0
     = Some (Value 2400%N).
Proof. by split; vm_compute. Qed.

(** C9, evaluated in binary64 on the test double with timestep 0.01: the
    trace has [nsteps = 1200] rows, and iteration number 1201 of the loop
    raises [IndexError] at [perturb[1200]]. *)
Theorem C9_binary64_time_overruns_the_trace :
  let mj := toy_mj f64_clock 0 (@spring_floor rat) in
  let m := @toy_model f64_clock 0.01%float in
  exists nz : noise 1 (toy_np rat),
    [/\ precompute_noise 1 (toy_np rat) m [:: 6; 7] 0%N = Value nz,
        noise_nsteps nz = Posz 1200 /\ size (perturb nz) = 1200%N,
        forall qpos0 ctrl0 K extra,
          disturbed_loop mj (1201 + extra) m qpos0 ctrl0 K (noise_std nz)
            (perturb nz) (initial_pose mj m (toy_data _ _ _) qpos0) 0
          = Some (Raise IndexError)
      & forall qpos0 ctrl0 K extra,
          final_run mj (toy_np rat) (1201 + extra) m [:: 6; 7]%N qpos0 ctrl0 K
            (toy_data _ _ _) 0%N
          = Some (Raise IndexError)].
Proof.
move=> mj m; have [EN Eloop] := binary64_clock_overruns.
have [nz [Enz nsteps_nz size_nz std_nz]] :=
  @precompute_noise_value _ _ _ (toy_np rat) m [:: 6; 7]%N 0%N 1200 _ EN isT
    (toy_CTRL_STD rat (0.01%float : f64_clock)).
have loop qpos0 ctrl0 K extra :
    disturbed_loop mj (1201 + extra) m qpos0 ctrl0 K (noise_std nz)
      (perturb nz) (initial_pose mj m (toy_data _ _ _) qpos0) 0
    = Some (Raise IndexError).
  apply: disturbed_loop_fuel; apply: disturbed_loop_raises; first exact: toy_step_time.
  by rewrite size_nz; exact: Eloop.
exists nz; split; [exact: Enz | by split | exact: loop |].
by move=> qpos0 ctrl0 K extra; rewrite /final_run Enz; exact: loop.
Qed.

Section Determinism.
Variables (C : clock) (F : archiRealFieldType) (nq nv nu : nat) (E : Type).
Variable mj : Mujoco C F nq nv nu E.
Variable np : Numlib F.
Variable m : MjModel C.
Variable balance_dofs : seq nat.
Variables (qpos0 : 'rV[F]_nq) (ctrl0 : 'rV[F]_nu) (K : 'M[F]_(nu, nv + nv)).


End Determinism.


(** * Further properties of the notebook's code *)

Section TrimTies.
Variable F : realFieldType.
Implicit Types (s pre : seq F) (best : F).

(** Every entry before the index that [np.argmin] returns is strictly
    larger than the entry at that index. *)
Lemma argmin_from_strict pre s best ibest :
  (ibest < size pre)%N -> nth 0 pre ibest = best ->
  (forall j, (j < size pre)%N -> best <= nth 0 pre j) ->
  (forall j, (j < ibest)%N -> best < nth 0 pre j) ->
  let r := argmin_from best ibest (size pre) s in
  forall j, (j < r)%N -> nth 0 (pre ++ s) r < nth 0 (pre ++ s) j.
Proof.
elim: s pre best ibest => [|x s IH] pre best ibest lt_ib nth_ib min_pre strict /=.
  by rewrite cats0 nth_ib.
have ->: pre ++ x :: s = rcons pre x ++ s by rewrite cat_rcons.
have size_rc: size (rcons pre x) = (size pre).+1 by rewrite size_rcons.
case: ifPn => [lt_x | le_best]; rewrite -size_rc; apply: IH; rewrite ?size_rc //.
- by rewrite nth_rcons ltnn eqxx.
- move=> j; rewrite ltnS leq_eqVlt nth_rcons => /orP[/eqP-> | lt_j].
    by rewrite ltnn eqxx.
  by rewrite lt_j; apply: le_trans (ltW lt_x) (min_pre _ lt_j).
- by move=> j lt_j; rewrite nth_rcons lt_j; apply: lt_le_trans lt_x (min_pre _ lt_j).
- exact: ltnW.
- by rewrite nth_rcons lt_ib.
- move=> j; rewrite ltnS leq_eqVlt nth_rcons => /orP[/eqP-> | lt_j].
    by rewrite ltnn eqxx leNgt.
  by rewrite lt_j; apply: min_pre.
- by move=> j lt_j; rewrite nth_rcons (ltn_trans lt_j lt_ib); apply: strict.
Qed.

Lemma np_argmin_strict s r : np_argmin s = Value r ->
  forall j, (j < r)%N -> nth 0 s r < nth 0 s j.
Proof.
case: s => [|x s] //= [<-].
by apply: (@argmin_from_strict [:: x] s x 0%N) => // -[|j].
Qed.

End TrimTies.

Section TrimSetpoint.
Variables (C : clock) (F : archiRealFieldType) (nq nv nu : nat) (E : Type).
Variable mj : Mujoco C F nq nv nu E.
Variable m : MjModel C.
Implicit Types (d : MjData C F nq nv nu E).

(** X1. Among several offsets with the same least absolute force the search
    takes the lowest one: every offset scanned before the selected one needs
    a strictly larger absolute force. *)
Theorem X1_best_offset_is_the_lowest_minimiser d :
  keyframe_reset_law mj m -> (2 < nq)%N -> (2 < nv)%N ->
  exists s : trim_search C F nq nv nu E,
    find_best_offset mj m d = Value s
    /\ forall i, (i < idx s)%N ->
         `|nth 0 (vertical_forces s) (idx s)| < `|nth 0 (vertical_forces s) i|.
Proof.
move=> reset_law nq_gt2 nv_gt2; rewrite /find_best_offset.
have [d' [fs [-> size_fs _]]] :=
  scan_value reset_law nq_gt2 nv_gt2 d (height_offsets F) d [::].
rewrite size_height_offsets bind_Value /= in size_fs *.
have [|r Er [lt_r _]] := @np_argmin_min F (np_abs fs).
  by rewrite size_map size_fs.
rewrite size_map size_fs in lt_r.
rewrite Er bind_Value (getitemT 0) ?size_height_offsets // bind_Value.
eexists; split=> //= i lt_i; have := np_argmin_strict Er lt_i.
by rewrite /np_abs !(nth_map 0) ?size_fs // (ltn_trans lt_i).
Qed.

(** X2. The setpoint cell repeats the scan's computation at the selected
    offset: [qpos0] is the keyframe pose after [mj_forward] with coordinate 2
    raised by [best_offset], and component 2 of [qfrc0] is the force the scan
    recorded at [idx], the least in absolute value. *)
Theorem X2_setpoint_force_is_the_scanned_minimum d d' :
  keyframe_reset_law mj m -> (2 < nq)%N -> (2 < nv)%N ->
  exists (s : trim_search C F nq nv nu E) (sp : setpoint C F nq nv nu E),
    [/\ find_best_offset mj m d = Value s,
        position_setpoint mj m d' (best_offset s) = Value sp,
        vec_get (qfrc0 sp) 2 = Value (nth 0 (vertical_forces s) (idx s)),
        forall j : 'I_nq,
          qpos0 sp 0 j
          = qpos (mj_forward mj m (mj_resetDataKeyframe mj m d' 1)) 0 j
            + (if j == 2 :> nat then best_offset s else 0)
      & forall i, (i < 2001)%N ->
          exists2 f, vec_get (qfrc0 sp) 2 = Value f
                   & `|f| <= `|nth 0 (vertical_forces s) i| ].
Proof.
move=> reset_law nq_gt2 nv_gt2; rewrite /find_best_offset.
have [d1 [fs [-> size_fs fsP]]] :=
  scan_value reset_law nq_gt2 nv_gt2 d' (height_offsets F) d [::].
rewrite size_height_offsets bind_Value /= in size_fs fsP *.
have [|r Er [lt_r min_r]] := @np_argmin_min F (np_abs fs).
  by rewrite size_map size_fs.
rewrite size_map size_fs in lt_r min_r.
rewrite Er bind_Value (getitemT 0) ?size_height_offsets // bind_Value.
have [di] := fsP r lt_r; set o := nth 0 _ r => Edi get_di.
move: Edi; rewrite /inverse_at /position_setpoint vec_iaddT !bind_Value.
set pose := set_qpos _ _ => -[Edi].
have Ef : vec_get (qfrc_inverse (mj_inverse mj m pose)) 2 = Value (nth 0 fs r).
  by rewrite Edi.
exists (TrimSearch d1 fs r o),
       (Setpoint (mj_inverse mj m pose) (qpos pose) (qfrc_inverse (mj_inverse mj m pose))).
split=> [||| j | i lt_i]; rewrite ?[best_offset _]/=.
- by [].
- by rewrite /position_setpoint vec_iaddT bind_Value.
- exact: Ef.
- by rewrite /= mxE -val_eqE /=; case: ifP => _ //; rewrite addr0.
exists (nth 0 fs r); first exact: Ef.
by have := min_r i lt_i; rewrite /np_abs !(nth_map 0) ?size_fs.
Qed.

End TrimSetpoint.

(** X1 and X2, on the test double with a spring floor. *)
Lemma X1_lowest_minimiser_witness :
  exists s : trim_search (exact_clock rat) rat 3 3 1 unit,
    find_best_offset (toy_mj _ 0 (@spring_floor rat)) (@toy_model (exact_clock rat) 1)
      (toy_data _ _ 0) = Value s
    /\ forall i, (i < idx s)%N ->
         `|nth 0 (vertical_forces s) (idx s)| < `|nth 0 (vertical_forces s) i|.
Proof.
exact: (X1_best_offset_is_the_lowest_minimiser (toy_data _ _ 0)
          (@toy_reset_law (exact_clock rat) rat 0 (@spring_floor rat)
             (@toy_model (exact_clock rat) 1)) isT isT).
Defined.

Lemma X2_setpoint_force_witness :
  let mj := toy_mj (exact_clock rat) 0 (@spring_floor rat) in
  let m := @toy_model (exact_clock rat) 1 in
  exists (s : trim_search (exact_clock rat) rat 3 3 1 unit)
         (sp : setpoint (exact_clock rat) rat 3 3 1 unit),
    [/\ find_best_offset mj m (toy_data _ _ 0) = Value s,
        position_setpoint mj m (toy_data _ _ 0) (best_offset s) = Value sp
      & vec_get (qfrc0 sp) 2 = Value (nth 0 (vertical_forces s) (idx s))].
Proof.
move=> mj m.
have [s [sp [Es Esp Ef _ _]]] :=
  X2_setpoint_force_is_the_scanned_minimum (toy_data _ _ 0) (toy_data _ _ 0)
    (@toy_reset_law (exact_clock rat) rat 0 (@spring_floor rat) m) isT isT.
by exists s, sp.
Defined.

Section JointLookup.
Variable C : clock.

(** X3. The lists of cell 36 are always computed: every name handed to
    [model.joint] comes from the joint table, so that no [KeyError] arises,
    and every address in [balance_dofs] is the address of a joint of the
    table. *)
Theorem X3_balance_dofs_never_raise (m : MjModel C) :
  exists2 b : seq nat,
    balance_dofs m = Value b & {subset b <= [seq dofadr j | j <- joints m]}.
Proof.
have [|b Eb /allP sub_b] :=
  @balance_dofs_value C m (mem [seq dofadr j | j <- joints m]).
  exact/allP.
by exists b.
Qed.

(** [model.joint(name)] raises [KeyError] for a name that is not in the
    table. *)
Lemma joint_named_missing (m : MjModel C) (name : string) :
  ~~ has (fun j => String.eqb (jname j) name) (joints m) ->
  joint_named m name = Raise KeyError.
Proof.
by rewrite /joint_named -size_filter_gt0 lt0n negbK; case: filter.
Qed.

End JointLookup.

Section JointCostErrors.
Variables (F : archiRealFieldType) (nv : nat).


End JointCostErrors.

Section ClosedLoopCost.
Variables (F : archiRealFieldType) (nv nu : nat).
Variable np : Numlib F.
Implicit Types (A Q : 'M[F]_(nv + nv)) (B : 'M[F]_(nv + nv, nu)) (R : 'M[F]_nu).

(** The gain cell under the contract of the solver. *)
Lemma lqr_gain_value A B Q R :
  dare_solver_contract np A B Q R ->
  symmetric Q -> positive_semidefinite Q ->
  symmetric R -> positive_definite R -> stabilizable A B ->
  exists X : 'M[F]_(nv + nv),
    [/\ lqr_gain np A B Q R
        = Value (Lqr X (invmx (R + B^T *m X *m B) *m B^T *m X *m A)),
        positive_semidefinite X,
        R + B^T *m X *m B \in unitmx
      & scipy_dare A B Q R X].
Proof.
move=> contract symQ psdQ symR pdR stabAB.
have [X [EX symX psdX dareX]] := contract symQ psdQ symR pdR stabAB.
have unitM := pd_unitmx (gain_denominator_pd B pdR psdX).
by exists X; rewrite /lqr_gain EX bind_Value /np_linalg_inv unitM bind_Value.
Qed.

Lemma joseph_rearrange (n : nat) (q a b c e r : 'M[F]_n) :
  r + e = c -> q + r + (a - c - (b - e)) = q + a - b.
Proof. by move=> <-; apply/matrixP=> i j; rewrite !mxE; ring. Qed.

Lemma closed_loop_riccati A B Q R (X : 'M[F]_(nv + nv)) (G : 'M[F]_(nu, nv + nv)) :
  R + B^T *m X *m B \in unitmx -> scipy_dare A B Q R X ->
  (R + B^T *m X *m B) *m G = B^T *m X *m A ->
  X = Q + G^T *m R *m G + (A - B *m G)^T *m X *m (A - B *m G).
Proof.
move=> unitM dareX MG.
have trB : (A - B *m G)^T = A^T - (B *m G)^T by rewrite linearB.
rewrite [LHS](riccati_rearrange dareX) mulmxBr trB !mulmxBl.
have -> : A^T *m X *m B *m invmx (R + B^T *m X *m B) *m (B^T *m X *m A)
          = A^T *m X *m (B *m G).
  by rewrite -MG -[in LHS]mulmxA mulKmx // -[in LHS]mulmxA.
symmetry; apply: joseph_rearrange.
rewrite trmx_mul -[G^T *m R *m G]mulmxA -[G^T *m B^T *m X *m A]mulmxA.
rewrite -[G^T *m B^T *m X]mulmxA -[G^T *m _ *m (B *m G)]mulmxA -mulmxDr.
by rewrite -[RHS]mulmxA [B^T *m (X *m A)]mulmxA -MG mulmxDl !mulmxA.
Qed.


End ClosedLoopCost.


Section WeightsToGain.
Variables (C : clock) (F : archiRealFieldType) (nq nv nu : nat) (E : Type).
Variable mj : Mujoco C F nq nv nu E.
Variable np : Numlib F.


End WeightsToGain.


Section ExactTicks.
Variable F : archiRealFieldType.
Variables (ts : F) (T N : nat).
Hypothesis ts_gt0 : 0 < ts.
Hypothesis ticksE : Num.ceil (T%:R / ts) = Posz N.

(** In exact time the test of the loop passes at tick [k] exactly when
    [k < ceil(T / timestep)]. *)
Lemma in_time_ticks k : (k%:R * ts < T%:R) = (k < N)%N.
Proof.
by rewrite -ltr_pdivlMr // -[k%:R]/((Posz k)%:~R) -ceil_gt_int ticksE ltz_nat.
Qed.

Lemma end_time_ticks : T%:R <= N%:R * ts < T%:R + ts.
Proof.
rewrite leNgt in_time_ticks ltnn /=.
case EN: N => [|n]; first by rewrite mul0r ltr_wpDl ?ler0n.
by rewrite -natr1 mulrDl mul1r ltrD2r in_time_ticks EN.
Qed.

End ExactTicks.

Section ExactLoops.
Variables (F : archiRealFieldType) (nq nv nu : nat) (E : Type).
Let C := exact_clock F.
Variable mj : Mujoco C F nq nv nu E.
Variable m : MjModel C.
Variables (qpos0 : 'rV[F]_nq) (ctrl0 : 'rV[F]_nu) (K : 'M[F]_(nu, nv + nv)).
Implicit Types (d : MjData C F nq nv nu E) (n fuel step : nat).

Let ts : F := opt_timestep m.

Hypothesis ts_gt0 : 0 < ts.
Hypothesis step_time : step_time_law mj m.

Lemma time_spec_run (disturbance : nat -> 'rV[F]_nu) n d step :
  (time (spec_run mj m qpos0 0 ctrl0 K disturbance n d step) : F)
  = time d + n%:R * ts.
Proof.
elim: n d step => [|n IH] d step /=; first by rewrite mul0r addr0.
by rewrite IH /spec_tick step_time /= -/ts -natr1 mulrDl mul1r addrA addrAC.
Qed.

Lemma lqr_loop_done fuel T d :
  clt (time d) (cnat C T) = false ->
  lqr_loop mj fuel T m qpos0 ctrl0 K d = Some d.
Proof. by case: fuel => [|fuel] /= ->. Qed.

Lemma disturbed_loop_done fuel std perturb d step :
  clt (time d) (cnat C DURATION) = false ->
  disturbed_loop mj fuel m qpos0 ctrl0 K std perturb d step
  = Some (Value (d, step)).
Proof. by case: fuel => [|fuel] /= ->. Qed.


(** With exact time the disturbed loop reads every row of a trace of
    [nsteps] rows exactly once. *)
Lemma disturbed_loop_exact d (std : 'rV[F]_nu) (perturb : seq 'rV[F]_nu)
    (N fuel : nat) :
  data_reset_law mj m -> nsteps m = Value (Posz N) -> size perturb = N ->
  (N <= fuel)%N ->
  let d' := spec_run mj m qpos0 0 ctrl0 K
              (fun step => \row_i (std 0 i * (nth 0 perturb step) 0 i)) N
              (initial_pose mj m d qpos0) 0 in
  disturbed_loop mj fuel m qpos0 ctrl0 K std perturb
    (initial_pose mj m d qpos0) 0
  = Some (Value (d', N))
  /\ DURATION%:R <= (time d' : F) < DURATION%:R + ts.
Proof.
move=> [_ reset_time] Ensteps size_p le_fuel d'.
have EN : Num.ceil (DURATION%:R / ts) = Posz N.
  by move: Ensteps; rewrite /nsteps /= -/ts gt_eqF // => -[].
have time0 : (time (initial_pose mj m d qpos0) : F) = 0 by exact: reset_time.
have Etime : (time d' : F) = N%:R * ts by rewrite /d' time_spec_run time0 add0r.
split; last by rewrite Etime (end_time_ticks ts_gt0 EN).
rewrite -(subnKC le_fuel) disturbed_loop_spec ?size_p ?add0n //; last first.
  apply: disturbed_loop_done; rewrite -/d' /= Etime.
  by rewrite (in_time_ticks ts_gt0 EN) ltnn.
move=> k lt_k; rewrite /= time_spec_run time0 add0r.
by rewrite (in_time_ticks ts_gt0 EN).
Qed.

Variable np : Numlib F.


End ExactLoops.

Lemma toy_ticks (F : archiRealFieldType) (n : nat) :
  Num.ceil (n%:R / (1 : F)) = Posz n.
Proof. by rewrite divr1 -[n%:R]/((Posz n)%:~R) intrKceil. Qed.

Lemma toy_nsteps (F : archiRealFieldType) :
  nsteps (@toy_model (exact_clock F) (2%:R^-1 : F)) = Value (Posz 24).
Proof.
rewrite /nsteps /= invr_eq0 pnatr_eq0 /= invrK /DURATION -natrM.
by rewrite -[_%:R]/((Posz 24)%:~R) intrKceil.
Qed.



Section Recording.
Variables (C : clock) (F : archiRealFieldType) (nq nv nu : nat) (E : Type).
Variable mj : Mujoco C F nq nv nu E.
Variable np : Numlib F.
Variable tm : timing C F.
Variable Px : Type.
Variables vw hires : Viewer C F nq nv nu E Px.
Variables (np_cos : F -> F) (np_pi : F).
Variable m : MjModel C.
Variables (qpos0 : 'rV[F]_nq) (ctrl0 : 'rV[F]_nu) (K : 'M[F]_(nu, nv + nv)).

Lemma capture_total (scene : MjData C F nq nv nu E -> result Px) frames d :
  (forall d', exists px, scene d' = Value px) ->
  exists frames', capture tm scene frames d = Value frames'.
Proof.
move=> scene_ok; rewrite /capture; case: frame_due; last by exists frames.
by have [px ->] := scene_ok d; exists (rcons frames px).
Qed.

Lemma lqr_video_loop fuel T d frames :
  omap (result_map (fun r => r.1.1))
    (video_loop mj tm
       (fun d s => Value (lqr_control mj m qpos0 ctrl0 K d, s))
       (plain_scene vw) fuel T m d tt frames)
  = omap (@Value _) (lqr_loop mj fuel T m qpos0 ctrl0 K d).
Proof.
elim: fuel d frames => [|fuel IH] d frames /=; case: ifP => // _.
have [frames' ->] :
    exists frames', capture tm (plain_scene vw) frames
      (mj_step mj m (lqr_control mj m qpos0 ctrl0 K d)) = Value frames'.
  by apply: capture_total => d'; eexists.
exact: IH.
Qed.

Lemma final_video_loop std perturb (camera : MjvCamera F) fuel d step frames :
  omap (result_map (fun r => r.1))
    (video_loop mj tm (disturbed_step mj m qpos0 ctrl0 K std perturb)
       (orbiting_scene tm hires np_cos np_pi camera) fuel DURATION m d step frames)
  = disturbed_loop mj fuel m qpos0 ctrl0 K std perturb d step.
Proof.
elim: fuel d step frames => [|fuel IH] d step frames /=; case: ifP => // _.
rewrite /disturbed_step; case: disturbed_control => [d1|e] //=.
have [frames' ->] :
    exists frames', capture tm (orbiting_scene tm hires np_cos np_pi camera) frames
      (mj_step mj m d1) = Value frames'.
  by apply: capture_total => d'; eexists.
exact: IH.
Qed.

(** X9. Recording does not feed back into the simulation: the balancing loop
    with its frame capture leaves the data that the loop without frames
    leaves, and the last cell with its frame capture ends, or raises, as
    the run without frames does, with the same data and step counter. *)
Theorem X9_recording_does_not_change_the_run (fuel : nat)
    (d : MjData C F nq nv nu E) (b : seq nat) (g : rng np) :
  omap (result_map (fun r => r.1.1))
    (lqr_video mj tm vw fuel m d qpos0 ctrl0 K)
  = omap (@Value _) (stable_standing mj fuel m d qpos0 ctrl0 K)
  /\ omap (result_map (fun r => r.1))
       (final_video mj np tm vw hires np_cos np_pi fuel m b qpos0 ctrl0 K d g)
     = final_run mj np fuel m b qpos0 ctrl0 K d g.
Proof.
split; first exact: lqr_video_loop.
rewrite /final_video /final_run; case: precompute_noise => [nz|e] //.
exact: final_video_loop.
Qed.

End Recording.

Section FramesInExactTime.
Variables (F : archiRealFieldType) (nq nv nu : nat) (E Px : Type).
Let C := exact_clock F.
Variable mj : Mujoco C F nq nv nu E.
Variable m : MjModel C.
Variable S : Type.
Variable control :
  MjData C F nq nv nu E -> S -> result (MjData C F nq nv nu E * S).
Variable scene : MjData C F nq nv nu E -> result Px.
Variables (T N : nat).
(** What is known of the carried state at each iteration. *)
Variable ok : nat -> S -> Prop.
Implicit Types (d : MjData C F nq nv nu E) (frames : seq Px).

Let ts : F := opt_timestep m.

Hypothesis ts_gt0 : 0 < ts.
Hypothesis frame_rate : ts * FRAMERATE%:R <= 1.
Hypothesis step_time : step_time_law mj m.
Hypothesis ticksE : Num.ceil (T%:R / ts) = Posz N.
Hypothesis control_ok : forall k d s, (k < N)%N -> ok k s ->
  exists d' s', [/\ control d s = Value (d', s'), time d' = time d & ok k.+1 s'].
Hypothesis scene_ok : forall d, exists px, scene d = Value px.

Lemma capture_framed frames d (t : F) :
  framed frames t -> (time d : F) = t + ts ->
  exists2 frames', capture (exact_timing F) scene frames d = Value frames'
                   & framed frames' (t + ts).
Proof.
rewrite /framed /capture /= => /andP[lo hi] ->.
set n : F := (size frames)%:R in lo hi *.
case: ltP => [due | not_due].
  have [px ->] := scene_ok d; rewrite bind_Value.
  exists (rcons frames px) => //.
  rewrite size_rcons -natr1 -/n addrK due /= mulrDl.
  exact: lerD.
exists frames => //; rewrite -/n not_due andbT.
by apply: lt_le_trans lo _; rewrite mulrDl lerDl mulr_ge0 ?ler0n // ltW.
Qed.

Lemma video_loop_exact fuel k d s frames :
  (k <= N)%N -> (N - k <= fuel)%N -> (time d : F) = k%:R * ts -> ok k s ->
  framed frames (time d) ->
  exists d' s' frames',
    [/\ video_loop mj (exact_timing F) control scene fuel T m d s frames
        = Some (Value (d', s', frames')),
        (time d' : F) = N%:R * ts, ok N s' & framed frames' (time d')].
Proof.
elim: fuel k d s frames => [|fuel IH] k d s frames le_k le_fuel Etime ok_s fr.
  have EkN : k = N by apply/eqP; rewrite eqn_leq le_k -subn_eq0 -leqn0.
  rewrite /= Etime (in_time_ticks ts_gt0 ticksE) EkN ltnn.
  by exists d, s, frames; split; rewrite // -?EkN.
rewrite /= Etime (in_time_ticks ts_gt0 ticksE).
case: ltnP => [lt_k | le_Nk]; last first.
  have EkN : k = N by apply/eqP; rewrite eqn_leq le_k.
  by exists d, s, frames; split; rewrite // -?EkN.
have [d1 [s1 [-> time_d1 ok_s1]]] := control_ok d lt_k ok_s.
have time_d2 : (time (mj_step mj m d1) : F) = time d + ts.
  by rewrite step_time /= time_d1.
have [frames' -> fr'] := capture_framed fr time_d2.
apply: (IH k.+1) => //.
- by rewrite subnS -ltnS prednK ?subn_gt0.
- by rewrite time_d2 Etime -natr1 mulrDl mul1r.
- by rewrite time_d2.
Qed.

Lemma framed_size frames (t : F) :
  framed frames t -> T%:R <= t -> (T * FRAMERATE <= size frames)%N.
Proof.
case/andP=> _ hi le_t; rewrite -(ler_nat F) natrM.
by apply: le_trans hi; rewrite ler_wpM2r ?ler0n.
Qed.

Lemma framed_ceil frames (t : F) :
  framed frames t -> Num.ceil (t * FRAMERATE%:R) = Posz (size frames).
Proof.
by move=> fr; apply: ceil_def; rewrite intrD /= mulrN1z.
Qed.

End FramesInExactTime.

Section VideosInExactTime.
Variables (F : archiRealFieldType) (nq nv nu : nat) (E Px : Type).
Let C := exact_clock F.
Variable mj : Mujoco C F nq nv nu E.
Variable np : Numlib F.
Variables vw hires : Viewer C F nq nv nu E Px.
Variables (np_cos : F -> F) (np_pi : F).
Variable m : MjModel C.
Variables (qpos0 : 'rV[F]_nq) (ctrl0 : 'rV[F]_nu) (K : 'M[F]_(nu, nv + nv)).
Implicit Types (d : MjData C F nq nv nu E) (frames : seq Px).

Let ts : F := opt_timestep m.

Hypothesis ts_gt0 : 0 < ts.
Hypothesis frame_rate : ts * FRAMERATE%:R <= 1.
Hypothesis step_time : step_time_law mj m.

Lemma framed_nil d : (time d : F) = 0 -> framed (Nil Px) (time d : F).
Proof. by move=> ->; rewrite /framed /= mul0r sub0r lexx ltrN10. Qed.




End VideosInExactTime.

Section ToySixtieth.
Variable F : archiRealFieldType.

Lemma toy_sixtieth_gt0 : 0 < (60%:R^-1 : F).
Proof. by rewrite invr_gt0 ltr0n. Qed.

Lemma toy_frame_rate : (60%:R^-1 : F) * FRAMERATE%:R <= 1.
Proof. by rewrite mulVf // pnatr_eq0. Qed.

Lemma toy_ticks_sixtieth n : Num.ceil (n%:R / (60%:R^-1 : F)) = Posz (n * 60).
Proof. by rewrite invrK -natrM -[_%:R]/((Posz (n * 60))%:~R) intrKceil. Qed.

Lemma toy_nsteps_sixtieth :
  nsteps (@toy_model (exact_clock F) (60%:R^-1 : F))
  = Value (Posz (DURATION * 60)).
Proof.
by rewrite /nsteps /= invr_eq0 pnatr_eq0 /= (toy_ticks_sixtieth DURATION).
Qed.

End ToySixtieth.




Section Convolution.
Variable F : archiRealFieldType.
Implicit Types (a v : seq F).

Lemma convolve_fullC a v : convolve_full a v = convolve_full v a.
Proof.
rewrite /convolve_full [(size v + _)%N]addnC; apply: eq_map => k.
rewrite -[iota 0 k.+1]/(index_iota 0 k.+1) big_nat_rev /=.
apply: eq_big_nat => j /andP[_ lt_j].
by rewrite add0n subSS subKn 1?mulrC // -ltnS.
Qed.

(** X13. [np.convolve(a, v, mode='same')] does not depend on the order of
    its two arguments; it raises [ValueError] exactly when one of them is
    empty, and otherwise returns as many entries as the longer one has. *)
Theorem X13_convolve_same_is_symmetric a v :
  np_convolve_same a v = np_convolve_same v a
  /\ if (size a == 0%N) || (size v == 0%N) then
       np_convolve_same a v = Raise ValueError
     else
       exists2 c, np_convolve_same a v = Value c
                  & size c = maxn (size a) (size v).
Proof.
split.
  rewrite /np_convolve_same [(size v == _) || _]orbC.
  case: ifP => // _; case: (ltngtP (size a) (size v)) => // eq_size.
  by rewrite convolve_fullC eq_size.
case: ifP => [empty | /norP[]]; first by rewrite /np_convolve_same empty.
rewrite -!lt0n => a_gt0 v_gt0.
have [le_va | lt_av] := leqP (size v) (size a).
  have [c -> size_c] := np_convolve_same_value v_gt0 le_va.
  by exists c.
have [c Ec size_c] := np_convolve_same_value a_gt0 (ltnW lt_av).
exists c; last by rewrite size_c.
rewrite -Ec /np_convolve_same [(size v == _) || _]orbC.
by rewrite lt_av ltnNge (ltnW lt_av).
Qed.

End Convolution.

Section ShortRuns.
Variables (C : clock) (F : archiRealFieldType) (nu : nat).
Variable np : Numlib F.
Variable m : MjModel C.

(** Fewer than fifteen steps leave no room for the kernel. *)
Lemma width_short N : (N < 15)%N -> width F (Posz N) = 0.
Proof.
move=> lt15; rewrite /width /py_int /CTRL_RATE /DURATION.
set x : F := _ / _.
have xE : x = N%:R / 15%:R by rewrite /x -[(Posz N)%:~R]/(N%:R); lra.
have x_ge0 : 0 <= x by rewrite xE divr_ge0 ?ler0n.
have x_lt1 : x < 1 by rewrite xE ltr_pdivrMr ?ltr0n // mul1r ltr_nat.
by rewrite x_ge0; apply: floor_def; rewrite x_ge0.
Qed.

(** X14. When the run has fewer than fifteen steps the noise cell raises
    [ValueError]: the width of the kernel is zero, and [np.convolve] refuses
    an empty argument. A negative [nsteps] is refused by [randn]. *)
Theorem X14_short_runs_are_refused (b : seq nat) (g : rng np) (n : int)
    (std : 'rV[F]_nu.+1) :
  nsteps m = Value n -> n < 15 -> CTRL_STD F nu.+1 m b = Value std ->
  precompute_noise nu.+1 np m b g = Raise ValueError.
Proof.
move=> En lt15 Estd; rewrite /precompute_noise En bind_Value.
case: n lt15 {En} => [N|//] lt15.
rewrite /randn bind_Value Estd bind_Value width_short // /kernel bind_Value.
by rewrite enum_ordSl /= /np_convolve_same orbT.
Qed.

End ShortRuns.

Lemma toy_nsteps_one (F : archiRealFieldType) :
  nsteps (@toy_model (exact_clock F) (1 : F)) = Value (Posz DURATION).
Proof. by rewrite /nsteps /= oner_eq0 (toy_ticks F DURATION). Qed.

(** X14, on the test double with timestep 1: twelve steps. *)
Lemma X14_short_runs_witness :
  precompute_noise 1 (toy_np rat) (@toy_model (exact_clock rat) 1)
    [:: 6; 7]%N 0%N
  = Raise ValueError.
Proof.
have EN := toy_nsteps_one rat.
exact: (@X14_short_runs_are_refused (exact_clock rat) rat 0 (toy_np rat)
          (@toy_model (exact_clock rat) 1) [:: 6; 7]%N 0%N (Posz 12) _ EN isT
          (toy_CTRL_STD rat (1 : exact_clock rat))).
Defined.

Section CameraOrbit.
Variables (C : clock) (F : archiRealFieldType) (nq nv nu : nat) (E : Type).
Variable tm : timing C F.
Variables (np_cos : F -> F) (np_pi : F).

(** X15. The azimuth of the orbiting camera stays between 100 degrees and
    [100 + 2 * TOTAL_ROTATION] degrees, whatever the time: [unit_smooth]
    ranges over [0, 2], so that the camera turns by up to twice
    [TOTAL_ROTATION]. *)
Theorem X15_camera_orbit_range (d : MjData C F nq nv nu E) (t : F) :
  (forall x, -1 <= np_cos x <= 1) ->
  100%:R <= azimuth tm np_cos np_pi d t <= 100%:R + 2%:R * TOTAL_ROTATION%:R.
Proof.
move=> cos_range; rewrite /azimuth /unit_smooth /TOTAL_ROTATION.
set c := np_cos _; have /andP[lo hi] := cos_range (seconds tm (time d) / DURATION%:R * 2%:R * np_pi).
by rewrite -/c in lo hi; apply/andP; split; lra.
Qed.

End CameraOrbit.

Lemma toy_cos_range (F : archiRealFieldType) (x : F) : -1 <= (1 : F) <= 1.
Proof. by rewrite lexx andbT (le_trans (lerN10 F) ler01). Qed.

(** X15, on the test double, with a constant cosine. *)
Lemma X15_camera_orbit_witness :
  100%:R <= azimuth (exact_timing rat) (fun _ => 1) 3%:R
              (toy_data (exact_clock rat) rat 0) 0
         <= 100%:R + 2%:R * TOTAL_ROTATION%:R.
Proof.
exact: (@X15_camera_orbit_range (exact_clock rat) rat 3 3 1 unit
          (exact_timing rat) (fun _ => 1) 3%:R
          (toy_data (exact_clock rat) rat 0) 0 (@toy_cos_range rat)).
Defined.

Section KernelNorm.
Variable F : archiRealFieldType.
Variable np : Numlib F.


End KernelNorm.

Lemma toy_kernel_energy (F : archiRealFieldType) :
  \sum_(x <- [seq np_exp (toy_np F) (- (1 / 2%:R) * x ^+ 2)
             | x <- linspace (- 3%:R) 3%:R 1]) `|x| ^+ 2 = 1 :> F.
Proof. by rewrite /= big_cons big_nil normr1 expr1n addr0. Qed.


Section ActuatorNoise.
Variables (C : clock) (F : archiRealFieldType) (nu : nat).
Variable m : MjModel C.
Variable b : seq nat.

(** The actuator [i] names a joint of the model. *)
Let wired (i : nat) : bool :=
  (i < size (actuator_trnid m))%N
  && (nth 0%N (actuator_trnid m) i < size (joints m))%N.

Let level (i : nat) : F :=
  if dofadr (nth (MjJoint "" 0) (joints m) (nth 0%N (actuator_trnid m) i)) \in b
  then BALANCE_STD F else OTHER_STD F.

Lemma actuator_std_value i :
  actuator_std F m b i = if wired i then Value (level i) else Raise IndexError.
Proof.
rewrite /actuator_std /wired.
have [lt_i | le_i] := ltnP i (size (actuator_trnid m)); last first.
  by rewrite (getitemF le_i).
rewrite (getitemT 0%N) // bind_Value /=.
have [lt_j | le_j] := ltnP _ (size (joints m)); last by rewrite (getitemF le_j).
by rewrite (getitemT (MjJoint "" 0)).
Qed.

Lemma comprehension_actuator_std s :
  comprehension (actuator_std F m b) s
  = if all wired s then Value [seq level i | i <- s] else Raise IndexError.
Proof.
elim: s => [|i s IH] //=; rewrite actuator_std_value.
by case: (wired i) => //=; rewrite IH; case: (all wired s).
Qed.

(** X17. [CTRL_STD] has two levels: when every actuator names a joint of the
    model it is the vector that holds [BALANCE_STD] where the joint's degree
    of freedom is a balance one and [OTHER_STD] elsewhere; otherwise the
    cell raises [IndexError]. *)
Theorem X17_CTRL_STD_value_or_IndexError :
  CTRL_STD F nu m b
  = if all (fun i => (i < size (actuator_trnid m))%N
                     && (nth 0%N (actuator_trnid m) i < size (joints m))%N)
           (iota 0 nu)
    then Value (\row_(i < nu)
                  if dofadr (nth (MjJoint "" 0) (joints m)
                               (nth 0%N (actuator_trnid m) i)) \in b
                  then BALANCE_STD F else OTHER_STD F)
    else Raise IndexError.
Proof.
rewrite /CTRL_STD comprehension_actuator_std -/wired.
case: (all wired _) => //; rewrite bind_Value; congr Value.
apply/rowP=> i; rewrite !mxE (nth_map 0%N) ?size_iota //.
by rewrite nth_iota // add0n.
Qed.

End ActuatorNoise.

Section Setpoint.
Variables (C : clock) (F : archiRealFieldType) (nq nv nu : nat) (E : Type).
Variable mj : Mujoco C F nq nv nu E.
Variable m : MjModel C.
Variables (qpos0 : 'rV[F]_nq) (ctrl0 : 'rV[F]_nu) (K : 'M[F]_(nu, nv + nv)).

(** X18. At the setpoint the controller commands the feed-forward control
    alone: when the position is [qpos0], the velocity is zero and the
    position difference of [qpos0] to itself is zero, the control law sets
    [data.ctrl] to [ctrl0], whatever the gain; the disturbed loop adds its
    noise sample to it, or raises [IndexError] when the trace is over. *)
Theorem X18_command_at_the_setpoint (d : MjData C F nq nv nu E)
    (std : 'rV[F]_nu) (perturb : seq 'rV[F]_nu) (step : nat) :
  mj_differentiatePos mj m 1 qpos0 qpos0 = 0 ->
  qpos d = qpos0 -> qvel d = 0 ->
  ctrl (lqr_control mj m qpos0 ctrl0 K d) = ctrl0
  /\ result_map (@ctrl _ _ _ _ _ _)
       (disturbed_control mj m qpos0 ctrl0 K std perturb d step)
     = if (step < size perturb)%N then
         Value (ctrl0 + \row_i (std 0 i * (nth 0 perturb step) 0 i))
       else Raise IndexError.
Proof.
move=> diff0 Eq Ev.
have Ectrl : ctrl (lqr_control mj m qpos0 ctrl0 K d) = ctrl0.
  rewrite /lqr_control /= /matvec /dx /dq Eq Ev diff0.
  by rewrite row_mx0 trmx0 mulmx0 trmx0 subr0.
split=> //; rewrite /disturbed_control.
have [lt_step | le_step] := ltnP step (size perturb); last first.
  by rewrite (getitemF le_step).
by rewrite (getitemT 0) // bind_Value -[in RHS]Ectrl.
Qed.

End Setpoint.

(** X18, on the test double at rest. *)
Lemma X18_setpoint_witness :
  let C := exact_clock rat in
  let mj := toy_mj C 0 (@spring_floor rat) in
  let m := @toy_model C 1 in
  let ctrl0 : 'rV[rat]_1 := const_mx 1 in
  let K : 'M[rat]_(1, 3 + 3) := const_mx 1 in
  ctrl (lqr_control mj m 0 ctrl0 K (toy_data C rat 0)) = ctrl0.
Proof.
move=> C mj m ctrl0 K.
have diff0 : mj_differentiatePos mj m 1 0 0 = 0 by rewrite /= subrr scaler0.
by have [] :=
  @X18_command_at_the_setpoint C rat 3 3 1 unit mj m 0 ctrl0 K
    (toy_data C rat 0) 0 [::] 0 diff0 erefl erefl.
Defined.

Section TrimSearchErrors.
Variables (C : clock) (F : archiRealFieldType) (nq nv nu : nat) (E : Type).
Variable mj : Mujoco C F nq nv nu E.
Variable m : MjModel C.

Lemma vec_getF (A : Type) n (v : 'rV[A]_n) k :
  (n <= k)%N -> vec_get v k = Raise IndexError.
Proof. by move=> le_nk; rewrite /vec_get insubF // ltnNge le_nk. Qed.

Lemma vec_iaddF (A : nmodType) n (v : 'rV[A]_n) k x :
  (n <= k)%N -> vec_iadd v k x = Raise IndexError.
Proof. by move=> le_nk; rewrite /vec_iadd insubF // ltnNge le_nk. Qed.

(** X19. The trim search and the setpoint cell read and write the third
    coordinate: on a model with fewer than three positions both raise
    [IndexError] at [qpos[2]], and with three positions but fewer than three
    degrees of freedom the search raises it at [qfrc_inverse[2]]. *)
Theorem X19_trim_needs_the_third_coordinate (d : MjData C F nq nv nu E)
    (offset : F) :
  ~~ ((2 < nq)%N && (2 < nv)%N) ->
  find_best_offset mj m d = Raise IndexError
  /\ ((nq <= 2)%N -> position_setpoint mj m d offset = Raise IndexError).
Proof.
rewrite negb_and -!leqNgt => short; split; last first.
  by move=> le_nq; rewrite /position_setpoint vec_iaddF.
rewrite /find_best_offset.
case Eoffsets: (height_offsets F) (size_height_offsets F) => [|o offsets] // _.
rewrite [scan _ _ _ _]/= /inverse_at; have [le_nq | lt_nq] := leqP nq 2.
  by rewrite vec_iaddF.
rewrite leqNgt lt_nq /= in short.
by rewrite vec_iaddT // bind_Value bind_Value vec_getF.
Qed.

End TrimSearchErrors.

(** X19, on a model without coordinates. *)
Lemma X19_trim_without_coordinates_witness :
  let C := exact_clock rat in
  let mj : Mujoco C rat 0 0 0 unit :=
    MkMujoco (fun _ d => d) (fun _ d _ => d) (fun _ d => d) (fun _ d => d)
      (fun _ d => d) (fun _ _ _ _ => 0) (fun _ _ _ => 0) (fun _ _ _ => 0)
      (fun _ _ _ _ => (0, 0)) (fun _ => 0) in
  let m : MjModel C := @MkModel C (1 : rat) [::] [::] (fun _ => Raise KeyError) in
  find_best_offset mj m (@MkData C rat 0 0 0 unit (0 : rat) 0 0 0 0 0 tt) = Raise IndexError.
Proof.
move=> C mj m.
by have [] :=
  @X19_trim_needs_the_third_coordinate C rat 0 0 0 unit mj m
    (@MkData C rat 0 0 0 unit (0 : rat) 0 0 0 0 0 tt) 0 isT.
Defined.

Section Channels.
Variables (F : archiRealFieldType) (nu : nat).
Implicit Types (ker c : seq F) (M : seq 'rV[F]_nu).

Lemma column_set_column M (j i : 'I_nu) c M' :
  size c = size M -> set_column M j c = Value M' ->
  column M' i = if i == j then c else column M i.
Proof.
move=> eq_size; rewrite /set_column eq_size eqxx => -[<-].
rewrite /column -map_comp.
have [-> | ne_ij] := eqVneq i j.
  rewrite -[RHS](@unzip2_zip _ _ M c) ?eq_size //.
  by apply: eq_map => rc /=; rewrite mxE eqxx.
rewrite -[M in RHS](@unzip1_zip _ _ M c) ?eq_size // -map_comp.
by apply: eq_map => rc /=; rewrite mxE (negPf ne_ij).
Qed.

Lemma smooth_columns ker M (channels : seq 'I_nu) :
  uniq channels -> (0 < size ker)%N -> (size ker <= size M)%N ->
  exists2 M', smooth ker M channels = Value M'
    & forall i, Value (column M' i)
                = if i \in channels then np_convolve_same (column M i) ker
                  else Value (column M i).
Proof.
move=> + ker_gt0; elim: channels M => [|j channels IH] M /=.
  by move=> _ _; exists M.
case/andP=> j_notin uniq_channels le_ker.
have [|c Ec size_c] := @np_convolve_same_value F (column M j) ker ker_gt0.
  by rewrite size_map.
rewrite size_map in size_c.
have [M1 EM1 size_M1] := set_column_value j size_c.
have [|M' EM' colM'] := IH M1 uniq_channels; first by rewrite size_M1.
exists M'; first by rewrite Ec bind_Value EM1 bind_Value.
move=> i; rewrite colM' in_cons (column_set_column i size_c EM1).
have [-> | ne_ij] /= := eqVneq i j; first by rewrite (negPf j_notin) Ec.
by [].
Qed.


End Channels.

